(** * A shallow embedding of the sphere ray tracer (angad_sphere_texture.cpp)

    The program computes with [float] (and, inside a few expressions, with
    [double]).  The vector class is a template over its scalar type, and the
    embedding keeps that generality for the whole program: every definition
    below is written over a scalar type [T] that provides the operations the
    C++ code applies to its numbers.  Control flow, the order of the
    operations and the shape of every expression follow the source line by
    line.

    Structural properties are proved for every scalar type.  Properties that
    rest on arithmetic are proved under [FloatLaws], the laws of exact
    arithmetic that binary floating point approximates; the theorems
    that settle a property of the program are stated so as to hold of
    [float] as well, while their auxiliary lemmas may be facts of exact
    arithmetic.  Two instances evaluate the definitions: the canonical
    rationals [Qc], and single precision floats as [SpecFloat] specifies
    them. *)

From Stdlib Require Import ZArith List Bool Lia QArith Qcanon Ring.
From Stdlib Require Ascii String SpecFloat.
Import ListNotations String.StringSyntax.
Delimit Scope string_scope with string.

Set Implicit Arguments.

(** ** The scalar interface *)

(** What the program does with a number.  [lit q] is the scalar denoted by a
    numeric literal or obtained by converting an [int]; [to_int] is
    [static_cast<int>]; [INFINITY] is the macro of that name (the value
    [1e8] on platforms where the source defines it itself). *)
Class Float (T : Type) : Type := {
  lit : Q -> T;
  fadd : T -> T -> T;
  fsub : T -> T -> T;
  fmul : T -> T -> T;
  fdiv : T -> T -> T;
  fneg : T -> T;
  sqrt : T -> T;
  flt : T -> T -> bool;
  feqb : T -> T -> bool;
  to_int : T -> Z;
  INFINITY : T
}.

(** The functions and the constant the program takes from [<cmath>]. *)
Class CMath (T : Type) : Type := {
  pow : T -> Z -> T;
  atan2 : T -> T -> T;
  acos : T -> T;
  M_PI : T
}.

Declare Scope float_scope.
Delimit Scope float_scope with F.
Arguments fadd {T _} (_ _)%_F.
Arguments fsub {T _} (_ _)%_F.
Arguments fmul {T _} (_ _)%_F.
Arguments fdiv {T _} (_ _)%_F.
Arguments fneg {T _} _%_F.
Arguments sqrt {T _} _%_F.
Arguments flt {T _} (_ _)%_F.
Arguments feqb {T _} (_ _)%_F.
Infix "+" := fadd : float_scope.
Infix "-" := fsub : float_scope.
Infix "*" := fmul : float_scope.
Infix "/" := fdiv : float_scope.
Notation "- a" := (fneg a) : float_scope.
Infix "<?" := flt : float_scope.
Notation "a >? b" := (flt b a) : float_scope.

(** [int] to scalar conversion, as applied to the literals [0], [1], [2],
    [3] and to the texture dimensions. *)
Definition of_int {T} `{Float T} (n : Z) : T := lit (inject_Z n).

(** [std::max(a, b)] is [(a < b) ? b : a]; [std::min(a, b)] is
    [(b < a) ? b : a]. *)
Definition std_max {T} `{Float T} (a b : T) : T := if (a <? b)%F then b else a.
Definition std_min_int (a b : Z) : Z := if (b <? a)%Z then b else a.
Definition std_max_int (a b : Z) : Z := if (a <? b)%Z then b else a.

(** The laws of exact arithmetic: a commutative ring, a strict total order
    compatible with addition, and a square root that is never negative and
    is positive on positive arguments. *)
Class FloatLaws (T : Type) `{Float T} : Prop := {
  f_ring : ring_theory (of_int 0) (of_int 1) fadd fmul fsub fneg (@eq T);
  flt_irrefl : forall a : T, (a <? a)%F = false;
  flt_trans : forall a b c : T,
      (a <? b)%F = true -> (b <? c)%F = true -> (a <? c)%F = true;
  flt_connex : forall a b : T,
      (a <? b)%F = false -> (b <? a)%F = false -> a = b;
  flt_add_mono : forall a b c : T,
      (a <? b)%F = true -> (a + c <? b + c)%F = true;
  sqrt_nonneg : forall a : T, (sqrt a <? of_int 0)%F = false;
  sqrt_pos : forall a : T,
      (of_int 0 <? a)%F = true -> (of_int 0 <? sqrt a)%F = true;
  INFINITY_nonneg : (INFINITY <? of_int 0)%F = false
}.
Arguments FloatLaws T {_}.

(** ** Vec3 *)

Record Vec3 (T : Type) : Type := mkVec3 { x : T; y : T; z : T }.
Arguments mkVec3 {T} _ _ _.

Section Vec3Ops.
Context {T : Type} `{Float T}.

Local Open Scope float_scope.

(** [Vec3(T xx)]: the same value in the three components. *)
Definition Vec3_splat (xx : T) : Vec3 T := mkVec3 xx xx xx.

Definition length2 (v : Vec3 T) : T := x v * x v + y v * y v + z v * z v.
Definition length (v : Vec3 T) : T := sqrt (length2 v).

Definition normalize (v : Vec3 T) : Vec3 T :=
  let nor2 := length2 v in
  if nor2 >? of_int 0 then
    let invNor := of_int 1 / sqrt nor2 in
    mkVec3 (x v * invNor) (y v * invNor) (z v * invNor)
  else v.

(** The divisor of the one division [normalize] performs, when it
    performs it. *)
Definition normalize_divisor (v : Vec3 T) : option T :=
  let nor2 := length2 v in
  if nor2 >? of_int 0 then Some (sqrt nor2) else None.

(** [operator*] with a scalar and with a vector, [dot], [operator-],
    [operator+], unary [operator-]. *)
Definition vscale (v : Vec3 T) (f : T) : Vec3 T :=
  mkVec3 (x v * f) (y v * f) (z v * f).
Definition vmul (v w : Vec3 T) : Vec3 T :=
  mkVec3 (x v * x w) (y v * y w) (z v * z w).
Definition dot (v w : Vec3 T) : T := x v * x w + y v * y w + z v * z w.
Definition vsub (v w : Vec3 T) : Vec3 T :=
  mkVec3 (x v - x w) (y v - y w) (z v - z w).
Definition vadd (v w : Vec3 T) : Vec3 T :=
  mkVec3 (x v + x w) (y v + y w) (z v + z w).
Definition vneg (v : Vec3 T) : Vec3 T := mkVec3 (- x v) (- y v) (- z v).
End Vec3Ops.

Declare Scope vec_scope.
Delimit Scope vec_scope with V.
Arguments vscale {T _} v%_V f%_F.
Arguments vmul {T _} (v w)%_V.
Arguments vadd {T _} (v w)%_V.
Arguments vsub {T _} (v w)%_V.
Arguments vneg {T _} v%_V.
Arguments dot {T _} (v w)%_V.
Arguments normalize {T _} v%_V.
Infix "+" := vadd : vec_scope.
Infix "-" := vsub : vec_scope.
Infix "*" := vmul : vec_scope.
Infix "*." := vscale (at level 40, left associativity) : vec_scope.
Notation "- v" := (vneg v) : vec_scope.

(** ** Sphere *)

Record Sphere (T : Type) : Type := mkSphere {
  center : Vec3 T;
  radius : T;
  radius2 : T;
  surfaceColor : Vec3 T;
  emissionColor : Vec3 T;
  transparency : T;
  reflection : T;
  texture : list (list (Vec3 T));
  textureWidth : Z;
  textureHeight : Z
}.

Section SphereOps.
Context {T : Type} `{Float T} `{CMath T}.

Local Open Scope float_scope.

(** The constructor.  The texture loader is outside the program's core:
    its result (the grid and the two dimensions it writes) is an
    argument, [None] standing for the empty file name; the C++
    constructor then leaves the two dimensions unset, and they are 0
    here. *)
Definition Sphere_new (c : Vec3 T) (r : T) (sc : Vec3 T) (refl transp : T)
    (ec : Vec3 T) (loaded : option (list (list (Vec3 T)) * Z * Z))
  : Sphere T :=
  match loaded with
  | Some (tex, w, h) => mkSphere c r (r * r) sc ec transp refl tex w h
  | None => mkSphere c r (r * r) sc ec transp refl [] 0 0
  end.

(** [intersect]: [None] is [return false], which leaves [t0] and [t1]
    as they were; [Some (t0, t1)] is [return true] with both written. *)
Definition intersect (s : Sphere T) (rayorig raydir : Vec3 T)
  : option (T * T) :=
  let l := (center s - rayorig)%V in
  let tca := dot l raydir in
  if tca <? of_int 0 then None
  else
    let d2 := dot l l - tca * tca in
    if d2 >? radius2 s then None
    else
      let thc := sqrt (radius2 s - d2) in
      Some (tca - thc, tca + thc).

(** The longitude and latitude parameters [u] and [v] of [getColor]. *)
Definition texture_u (s : Sphere T) (phit : Vec3 T) : T :=
  let hit := (phit - center s)%V in
  atan2 (z hit) (x hit) / (of_int 2 * M_PI) + lit 0.5.

Definition texture_v (s : Sphere T) (phit : Vec3 T) : T :=
  let hit := (phit - center s)%V in
  acos (y hit / radius s) / M_PI.

(** The two pixel indices [getColor] computes for a textured sphere. *)
Definition texture_index (s : Sphere T) (phit : Vec3 T) : Z * Z :=
  let u := texture_u s phit in
  let v := texture_v s phit in
  let xi := std_min_int (textureWidth s - 1)
              (std_max_int 0 (to_int (u * of_int (textureWidth s)))) in
  let yi := std_min_int (textureHeight s - 1)
              (std_max_int 0 (to_int (v * of_int (textureHeight s)))) in
  (xi, yi).

(** What the texture loader builds: [textureHeight] rows of
    [textureWidth] texels. *)
Definition texture_loaded (s : Sphere T) : Prop :=
  List.length (texture s) = Z.to_nat (textureHeight s) /\
  forall row, In row (texture s) ->
              List.length row = Z.to_nat (textureWidth s).

(** [texture[y][x]]: [None] when an index is outside its vector, where
    the C++ subscript has no defined result. *)
Definition texel (tex : list (list (Vec3 T))) (xi yi : Z)
  : option (Vec3 T) :=
  if (yi <? 0)%Z || (xi <? 0)%Z then None
  else
    match nth_error tex (Z.to_nat yi) with
    | Some row => nth_error row (Z.to_nat xi)
    | None => None
    end.

(** [getColor].  Black stands in for a read outside the texture. *)
Definition getColor (s : Sphere T) (phit : Vec3 T) : Vec3 T :=
  match texture s with
  | [] => surfaceColor s
  | _ :: _ =>
      let '(xi, yi) := texture_index s phit in
      match texel (texture s) xi yi with
      | Some c => c
      | None => Vec3_splat (of_int 0)
      end
  end.
End SphereOps.

(** ** The shading engine *)

Definition MAX_RAY_DEPTH : Z := 5.

Section Trace.
Context {T : Type} `{Float T} `{CMath T}.

Local Open Scope float_scope.

Definition mix (a b m : T) : T := b * m + a * (of_int 1 - m).

(** [float bias = 1e-4]. *)
Definition bias : T := lit 0.0001.

(** [if (t0 < 0) t0 = t1;]: the distance the search uses for a sphere
    that is hit. *)
Definition used_distance (t0 t1 : T) : T :=
  if t0 <? of_int 0 then t1 else t0.

(** One iteration of the nearest-hit loop on the pair ([tnear],
    [sphere]); [None] is the null pointer. *)
Definition nearest_step (rayorig raydir : Vec3 T)
    (st : T * option (Sphere T)) (s : Sphere T) : T * option (Sphere T) :=
  match intersect s rayorig raydir with
  | Some (t0, t1) =>
      let t0 := used_distance t0 t1 in
      if t0 <? fst st then (t0, Some s) else st
  | None => st
  end.

(** A sphere that leaves the search as it is: it is not hit, or its
    distance does not beat [INFINITY]. *)
Definition no_candidate (rayorig raydir : Vec3 T) (s : Sphere T) : Prop :=
  intersect s rayorig raydir = None \/
  exists t0 t1, intersect s rayorig raydir = Some (t0, t1) /\
                (used_distance t0 t1 <? INFINITY) = false.

Definition nearest_hit (rayorig raydir : Vec3 T) (spheres : list (Sphere T))
  : T * option (Sphere T) :=
  fold_left (nearest_step rayorig raydir) spheres (INFINITY, None).

(** The occlusion loop for light [i], started at index [j] on the
    spheres from [j] on.  It returns [transmission] together with the
    indices on which it called [intersect], in order; [break] ends the
    loop. *)
Fixpoint shadow_loop (i : nat) (orig dir : Vec3 T) (j : nat)
    (rest : list (Sphere T)) : Vec3 T * list nat :=
  match rest with
  | [] => (Vec3_splat (of_int 1), [])
  | sj :: rest' =>
      if negb (i =? j)%nat then
        match intersect sj orig dir with
        | Some _ => (Vec3_splat (of_int 0), [j])
        | None =>
            let '(tr, tested) := shadow_loop i orig dir (S j) rest' in
            (tr, j :: tested)
        end
      else shadow_loop i orig dir (S j) rest'
  end.

(** The indices of [seq j n] other than [i]. *)
Definition others (i j n : nat) : list nat :=
  filter (fun m => negb (i =? m)%nat) (seq j n).

Definition transmission (spheres : list (Sphere T)) (i : nat)
    (orig dir : Vec3 T) : Vec3 T :=
  fst (shadow_loop i orig dir 0 spheres).

(** What light [i], the sphere [si], adds to the surface colour. *)
Definition light_term (sphere : Sphere T) (phit nhit : Vec3 T)
    (spheres : list (Sphere T)) (i : nat) (si : Sphere T) : Vec3 T :=
  let lightDirection := normalize (center si - phit)%V in
  let tr := transmission spheres i (phit + nhit *. bias)%V lightDirection in
  (getColor sphere phit * tr
     *. std_max (of_int 0) (dot nhit lightDirection)
     * emissionColor si)%V.

(** The loop over the lights, started at index [i] on the spheres from
    [i] on, with the colour accumulated so far. *)
Fixpoint light_loop (sphere : Sphere T) (phit nhit : Vec3 T)
    (spheres : list (Sphere T)) (i : nat) (rest : list (Sphere T))
    (surfaceColor : Vec3 T) : Vec3 T :=
  match rest with
  | [] => surfaceColor
  | si :: rest' =>
      light_loop sphere phit nhit spheres (S i) rest'
        (if x (emissionColor si) >? of_int 0
         then (surfaceColor + light_term sphere phit nhit spheres i si)%V
         else surfaceColor)
  end.

Definition direct_illumination (sphere : Sphere T) (phit nhit : Vec3 T)
    (spheres : list (Sphere T)) : Vec3 T :=
  light_loop sphere phit nhit spheres 0 spheres (Vec3_splat (of_int 0)).

(** The spheres the loop treats as lights, with their indices. *)
Definition lights (spheres : list (Sphere T)) : list (nat * Sphere T) :=
  filter (fun p => x (emissionColor (snd p)) >? of_int 0)
         (combine (seq 0 (List.length spheres)) spheres).

(** The spec words a light as a sphere whose emission colour has a
    positive component.  [direct_illumination_any_channel] is the loop
    over the lights with that test in place of the test of the first
    channel. *)
Definition has_positive_emission (s : Sphere T) : bool :=
  (x (emissionColor s) >? of_int 0)
  || (y (emissionColor s) >? of_int 0)
  || (z (emissionColor s) >? of_int 0).

Fixpoint light_loop_any_channel (sphere : Sphere T) (phit nhit : Vec3 T)
    (spheres : list (Sphere T)) (i : nat) (rest : list (Sphere T))
    (surfaceColor : Vec3 T) : Vec3 T :=
  match rest with
  | [] => surfaceColor
  | si :: rest' =>
      light_loop_any_channel sphere phit nhit spheres (S i) rest'
        (if has_positive_emission si
         then (surfaceColor + light_term sphere phit nhit spheres i si)%V
         else surfaceColor)
  end.

Definition direct_illumination_any_channel (sphere : Sphere T)
    (phit nhit : Vec3 T) (spheres : list (Sphere T)) : Vec3 T :=
  light_loop_any_channel sphere phit nhit spheres 0 spheres
    (Vec3_splat (of_int 0)).

(** The hit point, and the normal with the flag [inside]. *)
Definition hit_point (rayorig raydir : Vec3 T) (tnear : T) : Vec3 T :=
  (rayorig + raydir *. tnear)%V.

Definition hit_normal (sphere : Sphere T) (raydir phit : Vec3 T)
  : Vec3 T * bool :=
  let nhit := normalize (phit - center sphere)%V in
  if dot raydir nhit >? of_int 0 then ((- nhit)%V, true) else (nhit, false).

(** The body of [trace], the recursive calls being made through
    [self].  [limit] is the bound the source fixes as [MAX_RAY_DEPTH].
    A call returns [None] when a call it makes does. *)
Definition trace_body (limit : Z)
    (self : Vec3 T -> Vec3 T -> list (Sphere T) -> Z -> option (Vec3 T))
    (rayorig raydir : Vec3 T) (spheres : list (Sphere T)) (depth : Z)
  : option (Vec3 T) :=
  match nearest_hit rayorig raydir spheres with
  | (_, None) => Some (Vec3_splat (of_int 2))
  | (tnear, Some sphere) =>
      let phit := hit_point rayorig raydir tnear in
      let '(nhit, inside) := hit_normal sphere raydir phit in
      let surfaceColor :=
        if ((transparency sphere >? of_int 0)
            || (reflection sphere >? of_int 0))
           && (depth <? limit)%Z
        then
          let facingratio := - dot raydir nhit in
          let fresneleffect :=
            mix (pow (of_int 1 - facingratio) 3) (of_int 1) (lit 0.1) in
          let refldir :=
            normalize (raydir - nhit *. of_int 2 *. dot raydir nhit)%V in
          match self (phit + nhit *. bias)%V refldir spheres (depth + 1)%Z
          with
          | None => None
          | Some reflection_ =>
              let refraction :=
                if negb (feqb (transparency sphere) (of_int 0)) then
                  let ior := lit 1.1 in
                  let eta := if inside then ior else of_int 1 / ior in
                  let cosi := - dot nhit raydir in
                  let k := of_int 1 - eta * eta * (of_int 1 - cosi * cosi) in
                  let refrdir :=
                    normalize
                      (raydir *. eta + nhit *. (eta * cosi - sqrt k))%V in
                  self (phit - nhit *. bias)%V refrdir spheres (depth + 1)%Z
                else Some (Vec3_splat (of_int 0))
              in
              match refraction with
              | None => None
              | Some refraction_ =>
                  Some ((reflection_ *. fresneleffect
                         + refraction_ *. (of_int 1 - fresneleffect)
                             *. transparency sphere)
                        * getColor sphere phit)%V
              end
          end
        else Some (direct_illumination sphere phit nhit spheres)
      in
      match surfaceColor with
      | None => None
      | Some c => Some (c + emissionColor sphere)%V
      end
  end.

(** [trace] with a bound on the number of nested activations: [None]
    when [fuel] activations are not enough. *)
Fixpoint trace_fuel (limit : Z) (fuel : nat) (rayorig raydir : Vec3 T)
    (spheres : list (Sphere T)) (depth : Z) : option (Vec3 T) :=
  match fuel with
  | O => None
  | S fuel' =>
      trace_body limit (trace_fuel limit fuel') rayorig raydir spheres depth
  end.

(** The activations a call at [depth] can nest: itself, and one more for
    each value of the counter from [depth + 1] up to [limit]. *)
Definition trace_levels (limit depth : Z) : nat :=
  S (Z.to_nat (limit - depth)).

Definition trace (rayorig raydir : Vec3 T) (spheres : list (Sphere T))
    (depth : Z) : option (Vec3 T) :=
  trace_fuel MAX_RAY_DEPTH (trace_levels MAX_RAY_DEPTH depth)
    rayorig raydir spheres depth.
End Trace.

(** ** A further law of exact arithmetic *)

(** [feqb], the [==] of the scalars, decides equality. *)
Class FieldLaws (T : Type) `{FloatLaws T} : Prop := {
  feqb_eq : forall a b : T, feqb a b = true <-> a = b
}.
Arguments FieldLaws T {_ _}.

(** [a <= b], the negation of [b < a]. *)
Definition fle {T} `{Float T} (a b : T) : Prop := (b <? a)%F = false.
Infix "<=" := fle : float_scope.

(** ** The secondary rays *)

Section SecondaryRays.
Context {T : Type} `{Float T} `{CMath T}.

Local Open Scope float_scope.

(** The direction [refldir] before it is normalized. *)
Definition reflect_dir (raydir nhit : Vec3 T) : Vec3 T :=
  (raydir - nhit *. of_int 2 *. dot raydir nhit)%V.

(** [eta], [cosi] and [k] of the refraction, and the direction [refrdir]
    before it is normalized. *)
Definition refract_eta (inside : bool) : T :=
  let ior := lit 1.1 in if inside then ior else of_int 1 / ior.

Definition refract_k (eta : T) (raydir nhit : Vec3 T) : T :=
  let cosi := - dot nhit raydir in
  of_int 1 - eta * eta * (of_int 1 - cosi * cosi).

Definition refract_dir (eta : T) (raydir nhit : Vec3 T) : Vec3 T :=
  let cosi := - dot nhit raydir in
  let k := refract_k eta raydir nhit in
  (raydir *. eta + nhit *. (eta * cosi - sqrt k))%V.

(** The colour of the recursive branch, from the colours of the two
    secondary rays. *)
Definition fresnel (raydir nhit : Vec3 T) : T :=
  let facingratio := - dot raydir nhit in
  mix (pow (of_int 1 - facingratio) 3) (of_int 1) (lit 0.1).
End SecondaryRays.

(** ** Files and streams *)

(** A byte is its value, from 0 to 255; a file is the list of its bytes.
    [chars] gives the bytes of a string literal. *)
Definition chars (s : String.string) : list Z :=
  map (fun a => Z.of_N (Ascii.N_of_ascii a)) (String.list_ascii_of_string s).
Arguments chars s%_string.

(** How a call ends: it returns, it calls [exit] after a message on
    [cerr], it throws (a vector of negative size), or it uses a value that
    was never written and has no defined outcome. *)
Inductive outcome (A : Type) : Type :=
| Returns (a : A)
| Exits (message : list Z) (status : Z)
| Throws
| Undefined.
Arguments Returns {A} a.
Arguments Exits {A} message status.
Arguments Throws {A}.
Arguments Undefined {A}.

(** An input stream: the bytes not yet read, and whether every operation
    so far succeeded.  Once an operation fails the later ones do
    nothing. *)
Record istream : Type := mkIstream { pending : list Z; ok : bool }.

(** The white space [operator>>] skips: the space and the characters
    from [\t] to [\r]. *)
Definition is_space (c : Z) : bool :=
  (c =? 32)%Z || ((9 <=? c)%Z && (c <=? 13)%Z).

Definition is_digit (c : Z) : bool := (48 <=? c)%Z && (c <=? 57)%Z.

Fixpoint skipws (l : list Z) : list Z :=
  match l with
  | c :: l' => if is_space c then skipws l' else l
  | [] => []
  end.

(** The longest prefix without white space, and what follows it. *)
Fixpoint span_word (l : list Z) : list Z * list Z :=
  match l with
  | c :: l' =>
      if is_space c then ([], l)
      else let '(w, r) := span_word l' in (c :: w, r)
  | [] => ([], [])
  end.

(** The value of the longest prefix of digits after [acc], the number of
    digits, and what follows them. *)
Fixpoint span_digits (acc : Z) (n : nat) (l : list Z) : Z * nat * list Z :=
  match l with
  | c :: l' =>
      if is_digit c then span_digits (acc * 10 + (c - 48)) (S n) l'
      else (acc, n, l)
  | [] => (acc, n, [])
  end.

Definition INT_MAX : Z := 2147483647.
Definition INT_MIN : Z := -2147483648.

(** [file >> word] for a [std::string]: white space is skipped, then
    the characters up to the next white space are extracted.  The string
    is left empty when the stream has failed or ends in the white
    space. *)
Definition extract_word (st : istream) : list Z * istream :=
  if ok st then
    match skipws (pending st) with
    | [] => ([], mkIstream [] false)
    | l => let '(w, r) := span_word l in (w, mkIstream r true)
    end
  else ([], st).

(** [file >> n] for an [int]: white space is skipped, then an optional
    sign and the digits that follow are converted.  The result is the
    value written to [n], [None] when [n] is left as it was: the stream
    has failed, or ends in the white space.  Without a digit 0 is
    written, out of the range of [int] the nearest bound is, and in both
    cases the stream fails. *)
Definition extract_int (st : istream) : option Z * istream :=
  if ok st then
    match skipws (pending st) with
    | [] => (None, mkIstream [] false)
    | c :: l =>
        let negative := (c =? 45)%Z in
        let body := if (c =? 45)%Z || (c =? 43)%Z then l else c :: l in
        let '(v, n, r) := span_digits 0 0 body in
        match n with
        | O => (Some 0%Z, mkIstream r false)
        | S _ =>
            let v := if negative then (- v)%Z else v in
            if (v <? INT_MIN)%Z then (Some INT_MIN, mkIstream r false)
            else if (INT_MAX <? v)%Z then (Some INT_MAX, mkIstream r false)
            else (Some v, mkIstream r true)
        end
    end
  else (None, st).

(** [file.ignore()]: one byte is discarded, if there is one. *)
Definition ignore_one (st : istream) : istream :=
  if ok st then mkIstream (tl (pending st)) true else st.

(** [file.read(&c, 1)]: the byte read, [None] when [c] is left as it was
    because the stream has failed or is at its end. *)
Definition read_byte (st : istream) : option Z * istream :=
  if ok st then
    match pending st with
    | c :: l => (Some c, mkIstream l true)
    | [] => (None, mkIstream [] false)
    end
  else (None, st).

(** ** The texture loader *)

Section LoadTexture.
Context {T : Type} `{Float T}.

Local Open Scope float_scope.

(** [Vec3f(r / 255.0f, g / 255.0f, b / 255.0f)]. *)
Definition texel_of_bytes (r g b : Z) : Vec3 T :=
  mkVec3 (of_int r / lit 255) (of_int g / lit 255) (of_int b / lit 255).

(** One iteration of the inner loop: three bytes make a texel.  [None]
    when a byte was not read, its variable being then used without a
    value. *)
Definition read_texel (st : istream) : option (Vec3 T) * istream :=
  let '(r, st1) := read_byte st in
  let '(g, st2) := read_byte st1 in
  let '(b, st3) := read_byte st2 in
  match r, g, b with
  | Some r, Some g, Some b => (Some (texel_of_bytes r g b), st3)
  | _, _, _ => (None, st3)
  end.

(** The inner loop over [x] and the outer loop over [y]. *)
Fixpoint read_row (width : nat) (st : istream)
  : option (list (Vec3 T)) * istream :=
  match width with
  | O => (Some [], st)
  | S width' =>
      let '(c, st1) := read_texel st in
      let '(row, st2) := read_row width' st1 in
      match c, row with
      | Some c, Some row => (Some (c :: row), st2)
      | _, _ => (None, st2)
      end
  end.

Fixpoint read_rows (height width : nat) (st : istream)
  : option (list (list (Vec3 T))) :=
  match height with
  | O => Some []
  | S height' =>
      let '(row, st1) := read_row width st in
      match row, read_rows height' width st1 with
      | Some row, Some rows => Some (row :: rows)
      | _, _ => None
      end
  end.

Definition list_eqb (a b : list Z) : bool :=
  if list_eq_dec Z.eq_dec a b then true else false.

(** [loadTexture].  [file] is the content of the file of that name,
    [None] when it cannot be opened.  The result holds the texture and
    the values written to [width] and [height]. *)
Definition loadTexture (file : option (list Z)) (filename : list Z)
  : outcome (list (list (Vec3 T)) * Z * Z) :=
  match file with
  | None =>
      Exits (chars "Unable to open texture file: " ++ filename ++ [10%Z]) 1
  | Some bytes =>
      let '(magic, st1) := extract_word (mkIstream bytes true) in
      if negb (list_eqb magic (chars "P6")) then
        Exits (chars "Invalid PPM file format" ++ [10%Z]) 1
      else
        let '(width, st2) := extract_int st1 in
        let '(height, st3) := extract_int st2 in
        let '(maxVal, st4) := extract_int st3 in
        let st5 := ignore_one st4 in
        match width, height with
        | Some width, Some height =>
            if (width <? 0)%Z || (height <? 0)%Z then Throws
            else
              match read_rows (Z.to_nat height) (Z.to_nat width) st5 with
              | Some texture => Returns (texture, width, height)
              | None => Undefined
              end
        | _, _ => Undefined
        end
  end.

(** The texels a run of bytes makes, three bytes each, and a list cut
    into [height] rows of [width] elements: the layout of the pixels of
    a file. *)
Fixpoint texels_of (l : list Z) : list (Vec3 T) :=
  match l with
  | r :: g :: b :: l' => texel_of_bytes r g b :: texels_of l'
  | _ => []
  end.

Fixpoint rows_of {A : Type} (height width : nat) (l : list A)
  : list (list A) :=
  match height with
  | O => []
  | S height' => firstn width l :: rows_of height' width (skipn width l)
  end.

(** The constructor of [Sphere] with its file name argument: [files]
    gives the content of the files that can be opened. *)
Definition Sphere_construct (files : list Z -> option (list Z))
    (c : Vec3 T) (r : T) (sc : Vec3 T) (refl transp : T) (ec : Vec3 T)
    (textureFile : list Z) : outcome (Sphere T) :=
  match textureFile with
  | [] => Returns (Sphere_new c r sc refl transp ec None)
  | _ :: _ =>
      match loadTexture (files textureFile) textureFile with
      | Returns loaded =>
          Returns (Sphere_new c r sc refl transp ec (Some loaded))
      | Exits m n => Exits m n
      | Throws => Throws
      | Undefined => Undefined
      end
  end.
End LoadTexture.

(** ** The image writer and the driver *)

(** The value of a run of digits read after [acc]. *)
Definition digits_value (acc : Z) (ds : list Z) : Z :=
  fold_left (fun a c => (a * 10 + (c - 48))%Z) ds acc.

(** [ofs << n] for an [unsigned]: the decimal digits of [n], without
    leading zeros. *)
Fixpoint decimal_fuel (fuel : nat) (n : Z) : list Z :=
  match fuel with
  | O => []
  | S fuel' =>
      if (n <? 10)%Z then [(48 + n)%Z]
      else decimal_fuel fuel' (n / 10) ++ [(48 + n mod 10)%Z]
  end.

Definition decimal (n : Z) : list Z :=
  decimal_fuel (S (Z.to_nat (Z.log2 n))) n.

(** The list of the values when every element has one. *)
Fixpoint all_some {A : Type} (l : list (option A)) : option (list A) :=
  match l with
  | [] => Some []
  | Some a :: l' =>
      match all_some l' with Some r => Some (a :: r) | None => None end
  | None :: _ => None
  end.

(** [tan], which the driver takes from [<cmath>]. *)
Class CTan (T : Type) : Type := { tan : T -> T }.

Section Render.
Context {T : Type} `{Float T} `{CMath T} `{CTan T}.

Local Open Scope float_scope.

Definition std_min (a b : T) : T := if b <? a then b else a.

(** [(unsigned char)(std::min(float(1), c) * 255)]: the byte written for
    a channel, [None] when the truncated value is not a byte and the
    conversion has no defined result. *)
Definition quantize (c : T) : option Z :=
  let q := to_int (std_min (of_int 1) c * of_int 255) in
  if (0 <=? q)%Z && (q <=? 255)%Z then Some q else None.

Definition write_pixel (v : Vec3 T) : option (list Z) :=
  match quantize (x v), quantize (y v), quantize (z v) with
  | Some r, Some g, Some b => Some [r; g; b]
  | _, _, _ => None
  end.

Fixpoint write_pixels (image : list (Vec3 T)) : option (list Z) :=
  match image with
  | [] => Some []
  | v :: image' =>
      match write_pixel v, write_pixels image' with
      | Some p, Some r => Some (p ++ r)
      | _, _ => None
      end
  end.

(** A pixel and the texel its three bytes make when they are read
    back. *)
Definition reloads (v t : Vec3 T) : Prop :=
  exists r g b,
    quantize (x v) = Some r /\ quantize (y v) = Some g /\
    quantize (z v) = Some b /\ t = texel_of_bytes r g b.

(** What [render] writes to the file: the header, then three bytes for
    each pixel. *)
Definition ppm_header (width height : Z) : list Z :=
  chars "P6" ++ [10%Z] ++ decimal width ++ chars " " ++ decimal height
  ++ [10%Z] ++ chars "255" ++ [10%Z].

(** The same header with another maximum value. *)
Definition ppm_header_max (width height maxVal : Z) : list Z :=
  chars "P6" ++ [10%Z] ++ decimal width ++ chars " " ++ decimal height
  ++ [10%Z] ++ decimal maxVal ++ [10%Z].

Definition ppm_file (width height : Z) (image : list (Vec3 T))
  : option (list Z) :=
  match write_pixels image with
  | Some body => Some (ppm_header width height ++ body)
  | None => None
  end.

(** The direction of the primary ray of the pixel in column [xp] of row
    [yp]. *)
Definition primary_ray (width height xp yp : Z) : Vec3 T :=
  let invWidth := of_int 1 / of_int width in
  let invHeight := of_int 1 / of_int height in
  let fov := of_int 30 in
  let aspectratio := of_int width / of_int height in
  let angle := tan (M_PI * lit 0.5 * fov / lit 180) in
  let xx := (of_int 2 * ((of_int xp + lit 0.5) * invWidth) - of_int 1)
            * angle * aspectratio in
  let yy := (of_int 1 - of_int 2 * ((of_int yp + lit 0.5) * invHeight))
            * angle in
  normalize (mkVec3 xx yy (of_int (-1))).

(** The two loops over the pixels: the colours in the order of the
    buffer, row after row. *)
Definition render_image (width height : nat) (spheres : list (Sphere T))
  : list (option (Vec3 T)) :=
  flat_map
    (fun yp =>
       map (fun xp =>
              trace (Vec3_splat (of_int 0))
                (primary_ray (Z.of_nat width) (Z.of_nat height)
                   (Z.of_nat xp) (Z.of_nat yp))
                spheres 0)
           (seq 0 width))
    (seq 0 height).

(** [render] for an image of the given size: the content of the file it
    writes.  The source fixes the size to 640 by 480. *)
Definition render_sized (width height : nat) (spheres : list (Sphere T))
  : option (list Z) :=
  match all_some (render_image width height spheres) with
  | Some image => ppm_file (Z.of_nat width) (Z.of_nat height) image
  | None => None
  end.

Definition render (spheres : list (Sphere T)) : option (list Z) :=
  render_sized 640 480 spheres.

(** The scene of [main], sphere after sphere, and [main]: what it writes
    when the six constructors return. *)
Definition main_spheres (files : list Z -> option (list Z))
  : list (outcome (Sphere T)) :=
  [ Sphere_construct files
      (mkVec3 (lit 0.0) (of_int (-10004)) (of_int (-20))) (of_int 10000)
      (mkVec3 (lit 0.20) (lit 0.20) (lit 0.20)) (of_int 0) (lit 0.0)
      (Vec3_splat (of_int 0)) [];
    Sphere_construct files
      (mkVec3 (lit 0.0) (of_int 0) (of_int (-20))) (of_int 4)
      (mkVec3 (lit 1.00) (lit 0.32) (lit 0.36)) (of_int 1) (lit 0.5)
      (Vec3_splat (of_int 0)) (chars "angad_texture.ppm");
    Sphere_construct files
      (mkVec3 (lit 5.0) (of_int (-1)) (of_int (-15))) (of_int 2)
      (mkVec3 (lit 0.90) (lit 0.76) (lit 0.46)) (of_int 1) (lit 0.0)
      (Vec3_splat (of_int 0)) [];
    Sphere_construct files
      (mkVec3 (lit 5.0) (of_int 0) (of_int (-25))) (of_int 3)
      (mkVec3 (lit 0.65) (lit 0.77) (lit 0.97)) (of_int 1) (lit 0.0)
      (Vec3_splat (of_int 0)) [];
    Sphere_construct files
      (mkVec3 (lit (-5.5)) (of_int 0) (of_int (-15))) (of_int 3)
      (mkVec3 (lit 0.90) (lit 0.90) (lit 0.90)) (of_int 1) (lit 0.0)
      (Vec3_splat (of_int 0)) [];
    Sphere_construct files
      (mkVec3 (lit 0.0) (of_int 20) (of_int (-30))) (of_int 3)
      (mkVec3 (lit 0.00) (lit 0.00) (lit 0.00)) (of_int 0) (lit 0.0)
      (Vec3_splat (of_int 3)) [] ].

(** The spheres built until a constructor does not return. *)
Fixpoint collect (l : list (outcome (Sphere T)))
  : outcome (list (Sphere T)) :=
  match l with
  | [] => Returns []
  | Returns s :: l' =>
      match collect l' with
      | Returns r => Returns (s :: r)
      | Exits m n => Exits m n
      | Throws => Throws
      | Undefined => Undefined
      end
  | Exits m n :: _ => Exits m n
  | Throws :: _ => Throws
  | Undefined :: _ => Undefined
  end.

Definition main (files : list Z -> option (list Z))
  : outcome (option (list Z)) :=
  match collect (main_spheres files) with
  | Returns spheres => Returns (render spheres)
  | Exits m n => Exits m n
  | Throws => Throws
  | Undefined => Undefined
  end.
End Render.

(** ** The canonical rationals as scalars *)

(** Exact arithmetic on [Qc].  The square root is rounded down to a
    multiple of [1 / den] and is exact on squares of rationals;
    [INFINITY] and [M_PI] are the values the source defines where the
    platform does not; [atan2] and [acos] interpolate between the values
    the real functions take at the multiples of a quarter turn.  The
    theorems below hold for every choice of the [<cmath>] functions. *)
Module QcFloat.
Local Open Scope Qc_scope.

Definition ltb (a b : Qc) : bool :=
  match a ?= b with Lt => true | _ => false end.

Definition eqb (a b : Qc) : bool :=
  match a ?= b with Eq => true | _ => false end.

Definition sqrt (q : Qc) : Qc :=
  Q2Qc (Z.sqrt (Qnum q * Zpos (Qden q)) # Qden q).

Definition to_int (q : Qc) : Z := Z.quot (Qnum q) (Zpos (Qden q)).

Definition pow (q : Qc) (n : Z) : Qc :=
  match n with
  | Z0 => 1
  | Zpos p => Qcpower q (Pos.to_nat p)
  | Zneg p => 1 / Qcpower q (Pos.to_nat p)
  end.

Definition M_PI : Qc := Q2Qc 3.141592653589793.

Definition atan2_upper (b a : Qc) : Qc :=
  if ltb 0 a then M_PI / Q2Qc 2 * (b / (a + b))
  else if ltb 0 b then M_PI / Q2Qc 2 + M_PI / Q2Qc 2 * (- a / (b - a))
  else if ltb a 0 then M_PI else 0.

Definition atan2 (b a : Qc) : Qc :=
  if ltb b 0 then - atan2_upper (- b) a else atan2_upper b a.

Definition acos (a : Qc) : Qc := M_PI / Q2Qc 2 * (1 - a).
End QcFloat.

#[export] Instance Qc_Float : Float Qc := {|
  lit := Q2Qc;
  fadd := Qcplus;
  fsub := Qcminus;
  fmul := Qcmult;
  fdiv := Qcdiv;
  fneg := Qcopp;
  sqrt := QcFloat.sqrt;
  flt := QcFloat.ltb;
  feqb := QcFloat.eqb;
  to_int := QcFloat.to_int;
  INFINITY := Q2Qc 1e8
|}.

#[export] Instance Qc_CMath : CMath Qc := {|
  pow := QcFloat.pow;
  atan2 := QcFloat.atan2;
  acos := QcFloat.acos;
  M_PI := QcFloat.M_PI
|}.

(** The first terms of the series of the tangent stand for [tan]. *)
#[export] Instance Qc_CTan : CTan Qc := {|
  tan := fun a => (a + a * a * a / Q2Qc 3)%Qc
|}.

(** ** Scenes on the rationals *)

Module Scenes.
Definition vec (a b c : Q) : Vec3 Qc := mkVec3 (Q2Qc a) (Q2Qc b) (Q2Qc c).

(** A colour or a vector read as three fractions. *)
Definition observe (v : Vec3 Qc) : Q * Q * Q :=
  (this (x v), this (y v), this (z v)).

(** The camera of the driver, and a ray along its axis. *)
Definition eye : Vec3 Qc := vec 0 0 0.
Definition forward : Vec3 Qc := vec 0 0 (-1).
Definition backward : Vec3 Qc := vec 0 0 1.

(** An opaque ball in front of the camera and a white lamp above it. *)
Definition ball : Sphere Qc :=
  Sphere_new (vec 0 0 (-5)) (lit 1) (vec 1 0.5 0.25) (lit 0) (lit 0)
    (vec 0 0 0) None.

Definition lamp : Sphere Qc :=
  Sphere_new (vec 0 3 0) (lit 1) (vec 0 0 0) (lit 0) (lit 0)
    (vec 3 3 3) None.

(** The same lamp emitting in the second channel only. *)
Definition green_lamp : Sphere Qc :=
  Sphere_new (vec 0 3 0) (lit 1) (vec 0 0 0) (lit 0) (lit 0)
    (vec 0 3 0) None.

(** A mirror ball around the camera: every reflected ray hits it
    again. *)
Definition mirror : Sphere Qc :=
  Sphere_new (vec 0 0 0) (lit 1) (vec 1 1 1) (lit 1) (lit 0)
    (vec 0 0 0) None.

(** A ball of radius 2 around the origin, for a ray that starts inside
    it at [inner] and looks away from its centre. *)
Definition big_ball : Sphere Qc :=
  Sphere_new (vec 0 0 0) (lit 2) (vec 1 1 1) (lit 0) (lit 0)
    (vec 0 0 0) None.
Definition inner : Vec3 Qc := vec 0 0 (-1).

(** A ball carrying a texture of two rows of two texels. *)
Definition globe : Sphere Qc :=
  Sphere_new (vec 0 0 0) (lit 1) (vec 1 1 1) (lit 0) (lit 0) (vec 0 0 0)
    (Some ([[vec 1 0 0; vec 0 1 0]; [vec 0 0 1; vec 1 1 1]], 2%Z, 2%Z)).
End Scenes.

(** Further scenes and files. *)
Module MoreScenes.
Import Scenes.

(** A ball whose texture has one row and no column. *)
Definition hollow_globe : Sphere Qc :=
  Sphere_new (vec 0 0 0) (lit 1) (vec 1 1 1) (lit 0) (lit 0) (vec 0 0 0)
    (Some ([[]], 0%Z, 1%Z)).

(** A texture file of two columns and one row, a red and a green texel;
    the same file with 65535 for maximum value; the file without its
    last byte; and a file in the text format. *)
Definition tiny_pixels : list Z := [255; 0; 0; 0; 255; 0]%Z.
Definition tiny_ppm : list Z := ppm_header 2 1 ++ tiny_pixels.
Definition tiny_ppm_deep : list Z := ppm_header_max 2 1 65535 ++ tiny_pixels.
Definition tiny_ppm_cut : list Z := ppm_header 2 1 ++ [255; 0; 0; 0; 255]%Z.
Definition text_ppm : list Z :=
  chars "P3" ++ [10%Z] ++ chars "1 1" ++ [10%Z] ++ chars "255" ++ [10%Z]
  ++ chars "255 0 0".

(** An image of two pixels, one above the range of a channel. *)
Definition tiny_image : list (Vec3 Qc) := [vec 1 0.5 0; vec 3 0.25 1].

(** The texture of [tiny_ppm]. *)
Definition tiny_texture : list (list (Vec3 Qc)) :=
  rows_of 1 2 (texels_of tiny_pixels).

(** The file that [render] writes for the scene without a sphere: every
    pixel has the background colour, whose channels are written as
    255. *)
Definition white_file : list Z :=
  ppm_header (Z.of_nat 640) (Z.of_nat 480)
  ++ concat (repeat [255; 255; 255]%Z (480 * 640)).

(** A file system whose texture file is [white_file]. *)
Definition white_files : list Z -> option (list Z) :=
  fun _ => Some white_file.

(** A file system with no file, and one whose texture file is
    [text_ppm]. *)
Definition no_file : list Z -> option (list Z) := fun _ => None.
Definition text_file : list Z -> option (list Z) := fun _ => Some text_ppm.
End MoreScenes.

(** ** Single precision floats as scalars *)

(** [float] itself: IEEE 754 binary32, 24 bits of precision and exponents
    below 128, every operation rounded to the nearest float, ties to
    even, with signed zeros, infinities and NaN.  An [int] converts to
    the nearest float; a literal denotes its numerator divided by its
    denominator, rounded once; [to_int] truncates toward zero, and gives
    the smallest [int] for an infinity or a NaN, where the conversion is
    undefined; [INFINITY] is the infinity of [<cmath>]. *)
Module Binary32.
Import SpecFloat.

Definition prec : Z := 24.
Definition emax : Z := 128.

Definition of_Z (n : Z) : spec_float := binary_normalize prec emax n 0 false.

Definition lit (q : Q) : spec_float :=
  SFdiv prec emax (of_Z (Qnum q)) (of_Z (Zpos (Qden q))).

Definition to_int (f : spec_float) : Z :=
  match f with
  | S754_zero _ => 0%Z
  | S754_finite s m e =>
      let v := match e with
               | Zneg p => Z.shiftr (Zpos m) (Zpos p)
               | _ => Z.shiftl (Zpos m) e
               end in
      if s then (- v)%Z else v
  | _ => INT_MIN
  end.
End Binary32.

#[export] Instance Binary32_Float : Float SpecFloat.spec_float := {|
  lit := Binary32.lit;
  fadd := SpecFloat.SFadd Binary32.prec Binary32.emax;
  fsub := SpecFloat.SFsub Binary32.prec Binary32.emax;
  fmul := SpecFloat.SFmul Binary32.prec Binary32.emax;
  fdiv := SpecFloat.SFdiv Binary32.prec Binary32.emax;
  fneg := SpecFloat.SFopp;
  sqrt := SpecFloat.SFsqrt Binary32.prec Binary32.emax;
  flt := SpecFloat.SFltb;
  feqb := SpecFloat.SFeqb;
  to_int := Binary32.to_int;
  INFINITY := SpecFloat.S754_infinity false
|}.

(** ** Scenes on the floats *)

Module FloatScenes.
Import SpecFloat.

Definition vec32 (a b c : Q) : Vec3 spec_float :=
  mkVec3 (lit a) (lit b) (lit c).

(** The camera and the ray along its axis. *)
Definition eye32 : Vec3 spec_float := vec32 0 0 0.
Definition forward32 : Vec3 spec_float := vec32 0 0 (-1).

(** A sphere of radius [2^-24] at distance 1 on the axis. *)
Definition speck : Sphere spec_float :=
  Sphere_new (vec32 0 0 (-1)) (lit (1 # 16777216)) (vec32 1 1 1)
    (lit 0) (lit 0) (vec32 0 0 0) None.

(** A ball at distance [2^100] on the axis: the squares of the distance
    overflow, and [intersect] reports two NaN. *)
Definition far_ball : Sphere spec_float :=
  Sphere_new (vec32 0 0 (-1267650600228229401496703205376)) (lit 1)
    (vec32 1 1 1) (lit 0) (lit 0) (vec32 0 0 0) None.

(** A ball in front of the camera, and a ball of another colour in the
    same place. *)
Definition ball32 : Sphere spec_float :=
  Sphere_new (vec32 0 0 (-5)) (lit 1) (vec32 1 0.5 0.25) (lit 0) (lit 0)
    (vec32 0 0 0) None.
Definition twin32 : Sphere spec_float :=
  Sphere_new (vec32 0 0 (-5)) (lit 1) (vec32 0 1 0) (lit 0) (lit 0)
    (vec32 0 0 0) None.
End FloatScenes.

(** The rationals satisfy the laws of exact arithmetic. *)
Module QcLaws.
Local Open Scope Qc_scope.

Lemma ltb_lt (a b : Qc) : QcFloat.ltb a b = true <-> a < b.
Proof.
  unfold QcFloat.ltb. rewrite Qclt_alt.
  destruct (a ?= b); split; intro E; congruence.
Qed.

Lemma ltb_ge (a b : Qc) : QcFloat.ltb a b = false <-> b <= a.
Proof.
  split; intro E.
  - apply Qcnot_lt_le. intro L. apply ltb_lt in L. congruence.
  - destruct (QcFloat.ltb a b) eqn:L; [|reflexivity].
    apply ltb_lt in L. exfalso. exact (Qcle_not_lt _ _ E L).
Qed.

Lemma lt_add_r (a b c : Qc) : a < b -> a + c < b + c.
Proof.
  intro L. apply Qclt_minus_iff. apply Qclt_minus_iff in L.
  replace (b + c + - (a + c)) with (b + - a) by ring. exact L.
Qed.

Lemma Q2Qc_ge_0 (q : Q) : (0 <= q)%Q -> 0 <= Q2Qc q.
Proof.
  intro P. unfold Qcle. change (this (Q2Qc q)) with (Qred q).
  change (this 0) with (Qred 0). now rewrite !Qred_correct.
Qed.

Lemma Q2Qc_gt_0 (q : Q) : (0 < q)%Q -> 0 < Q2Qc q.
Proof.
  intro P. unfold Qclt. change (this (Q2Qc q)) with (Qred q).
  change (this 0) with (Qred 0). now rewrite !Qred_correct.
Qed.

Lemma sqrt_ge_0 (a : Qc) : 0 <= QcFloat.sqrt a.
Proof.
  apply Q2Qc_ge_0. unfold Qle. simpl. rewrite Z.mul_1_r.
  apply Z.sqrt_nonneg.
Qed.

Lemma sqrt_gt_0 (a : Qc) : 0 < a -> 0 < QcFloat.sqrt a.
Proof.
  intro P. apply Q2Qc_gt_0. unfold Qclt, Qlt in P. simpl in P.
  rewrite Z.mul_1_r in P. unfold Qlt. simpl. rewrite Z.mul_1_r.
  apply Z.sqrt_pos. nia.
Qed.
End QcLaws.

#[export] Instance Qc_FloatLaws : FloatLaws Qc.
Proof.
  split.
  - exact Qcrt.
  - intro a. apply QcLaws.ltb_ge. apply Qcle_refl.
  - intros a b c L1 L2. apply QcLaws.ltb_lt.
    apply QcLaws.ltb_lt in L1. apply QcLaws.ltb_lt in L2.
    exact (Qclt_trans _ _ _ L1 L2).
  - intros a b L1 L2. apply QcLaws.ltb_ge in L1. apply QcLaws.ltb_ge in L2.
    exact (Qcle_antisym _ _ L2 L1).
  - intros a b c L. apply QcLaws.ltb_lt. apply QcLaws.ltb_lt in L.
    exact (QcLaws.lt_add_r c L).
  - intro a. apply QcLaws.ltb_ge. apply QcLaws.sqrt_ge_0.
  - intros a L. apply QcLaws.ltb_lt. apply QcLaws.ltb_lt in L.
    exact (QcLaws.sqrt_gt_0 L).
  - reflexivity.
Qed.

(** ** Consequences of the laws *)

Section OrderFacts.
Context {T : Type} `{FloatLaws T}.

Local Open Scope float_scope.

Add Ring float_ring : f_ring.

Lemma flt_false_cases (a b : T) :
  (a <? b) = false -> (b <? a) = true \/ a = b.
Proof.
  intro E. destruct (b <? a) eqn:L; [now left | right].
  now apply flt_connex.
Qed.

Lemma flt_add_cancel (a b c : T) :
  (a + c <? b + c) = true -> (a <? b) = true.
Proof.
  intro L. apply flt_add_mono with (c := - c) in L.
  replace (a + c + - c) with a in L by ring.
  replace (b + c + - c) with b in L by ring. exact L.
Qed.

Lemma flt_asym (a b : T) : (a <? b) = true -> (b <? a) = false.
Proof.
  intro L. destruct (b <? a) eqn:E; [|reflexivity].
  pose proof (flt_trans _ _ _ L E) as C. rewrite flt_irrefl in C.
  discriminate.
Qed.

Lemma add_nonneg (a b : T) :
  (a <? of_int 0) = false -> (b <? of_int 0) = false ->
  (a + b <? of_int 0) = false.
Proof.
  intros A B. destruct (a + b <? of_int 0) eqn:E; [exfalso|reflexivity].
  destruct (flt_false_cases _ _ B) as [P | P].
  - apply flt_add_mono with (c := a) in P.
    replace (of_int 0 + a) with a in P by ring.
    replace (b + a) with (a + b) in P by ring.
    pose proof (flt_trans _ _ _ P E). congruence.
  - subst b. replace (a + of_int 0) with a in E by ring. congruence.
Qed.

Lemma sub_le_add (tca thc : T) :
  (thc <? of_int 0) = false -> (tca + thc <? tca - thc) = false.
Proof.
  intro P. destruct (tca + thc <? tca - thc) eqn:E; [exfalso|reflexivity].
  apply flt_add_mono with (c := thc - tca) in E.
  replace (tca + thc + (thc - tca)) with (thc + thc) in E by ring.
  replace (tca - thc + (thc - tca)) with (of_int 0 : T) in E by ring.
  pose proof (add_nonneg _ _ P P). congruence.
Qed.

Lemma Vec3_add_0_l (v : Vec3 T) : (Vec3_splat (of_int 0) + v)%V = v.
Proof. destruct v. unfold vadd, Vec3_splat. simpl. f_equal; ring. Qed.

Lemma Vec3_add_0_r (v : Vec3 T) : (v + Vec3_splat (of_int 0))%V = v.
Proof. destruct v. unfold vadd, Vec3_splat. simpl. f_equal; ring. Qed.

Lemma Vec3_mul_1_r (v : Vec3 T) : (v * Vec3_splat (of_int 1))%V = v.
Proof. destruct v. unfold vmul, Vec3_splat. simpl. f_equal; ring. Qed.

Lemma length2_zero : length2 (Vec3_splat (of_int 0 : T)) = of_int 0.
Proof. unfold length2, Vec3_splat. simpl. ring. Qed.
End OrderFacts.

(** ** Vec3::normalize *)

Section NormalizeFacts.
Context {T : Type} `{FloatLaws T}.

Local Open Scope float_scope.

Lemma normalize_unchanged (v : Vec3 T) :
  (length2 v >? of_int 0) = false -> normalize v = v.
Proof. intro E. unfold normalize. now rewrite E. Qed.

Lemma normalize_scaled (v : Vec3 T) :
  (length2 v >? of_int 0) = true ->
  normalize v = (v *. (of_int 1 / sqrt (length2 v)))%V.
Proof. intro E. unfold normalize, vscale. now rewrite E. Qed.

Lemma normalize_divisor_nonzero (v : Vec3 T) (d : T) :
  normalize_divisor v = Some d -> d <> of_int 0.
Proof.
  unfold normalize_divisor.
  destruct (length2 v >? of_int 0) eqn:E; [|discriminate].
  intros [= <-] Z. apply sqrt_pos in E. rewrite Z, flt_irrefl in E.
  discriminate.
Qed.

(** C7.  [normalize] returns its argument unchanged when the squared
    length is not strictly positive, so the zero vector stays the zero
    vector; when the squared length is strictly positive every component
    is multiplied by [1 / sqrt nor2]; and the divisor of the one division
    it performs is never zero. *)
Theorem normalize_guarded (v : Vec3 T) :
  ((length2 v >? of_int 0) = false -> normalize v = v) /\
  normalize (Vec3_splat (of_int 0 : T)) = Vec3_splat (of_int 0) /\
  ((length2 v >? of_int 0) = true ->
   normalize v =
     mkVec3 (x v * (of_int 1 / sqrt (length2 v)))
            (y v * (of_int 1 / sqrt (length2 v)))
            (z v * (of_int 1 / sqrt (length2 v))) /\
   normalize_divisor v = Some (sqrt (length2 v))) /\
  ((length2 v >? of_int 0) = false -> normalize_divisor v = None) /\
  (forall d, normalize_divisor v = Some d -> d <> of_int 0).
Proof.
  split; [apply normalize_unchanged|]. split; [|split; [|split]].
  - apply normalize_unchanged. rewrite length2_zero. apply flt_irrefl.
  - intro E. split; [now apply normalize_scaled|].
    unfold normalize_divisor. now rewrite E.
  - intro E. unfold normalize_divisor. now rewrite E.
  - apply normalize_divisor_nonzero.
Qed.
End NormalizeFacts.

(** ** Sphere::intersect *)

Section IntersectFacts.
Context {T : Type} `{FloatLaws T}.

Local Open Scope float_scope.

Add Ring float_ring_intersect : f_ring.

Lemma intersect_None_iff (s : Sphere T) (rayorig raydir : Vec3 T) :
  let l := (center s - rayorig)%V in
  let tca := dot l raydir in
  let d2 := dot l l - tca * tca in
  intersect s rayorig raydir = None <->
  (tca <? of_int 0) = true \/ (d2 >? radius2 s) = true.
Proof.
  unfold intersect. cbv zeta.
  destruct (dot (center s - rayorig) raydir <? of_int 0); [tauto|].
  destruct (radius2 s <? _); [tauto|].
  split; [discriminate | intros [E | E]; discriminate].
Qed.

Lemma intersect_Some_eq (s : Sphere T) (rayorig raydir : Vec3 T) t0 t1 :
  let l := (center s - rayorig)%V in
  let tca := dot l raydir in
  let d2 := dot l l - tca * tca in
  let thc := sqrt (radius2 s - d2) in
  intersect s rayorig raydir = Some (t0, t1) ->
  (tca <? of_int 0) = false /\ (d2 >? radius2 s) = false /\
  t0 = tca - thc /\ t1 = tca + thc.
Proof.
  unfold intersect. cbv zeta.
  destruct (dot (center s - rayorig) raydir <? of_int 0); [discriminate|].
  destruct (radius2 s <? _); [discriminate|].
  intros [= <- <-]. auto.
Qed.

(** C3.  [intersect] reports no intersection exactly when [tca] is
    negative or [d2] exceeds [radius2], in particular whenever [tca] is
    negative; otherwise it reports [t0 = tca - thc] and
    [t1 = tca + thc] with [thc = sqrt (radius2 - d2)], and [t1] is not
    below [t0].  That [t0] and [t1] are at the same distance from [tca]
    is not stated: it holds in exact arithmetic and fails in [float]. *)
Theorem intersect_spec (s : Sphere T) (rayorig raydir : Vec3 T) :
  let l := (center s - rayorig)%V in
  let tca := dot l raydir in
  let d2 := dot l l - tca * tca in
  let thc := sqrt (radius2 s - d2) in
  (intersect s rayorig raydir = None <->
   (tca <? of_int 0) = true \/ (d2 >? radius2 s) = true) /\
  ((tca <? of_int 0) = true -> intersect s rayorig raydir = None) /\
  ((tca <? of_int 0) = false -> (d2 >? radius2 s) = false ->
   intersect s rayorig raydir = Some (tca - thc, tca + thc)) /\
  (forall t0 t1, intersect s rayorig raydir = Some (t0, t1) ->
     t0 = tca - thc /\ t1 = tca + thc /\ (t1 <? t0) = false).
Proof.
  cbv zeta. split; [apply intersect_None_iff|]. split; [|split].
  - intro E. apply intersect_None_iff. now left.
  - intros E1 E2. unfold intersect. cbv zeta. now rewrite E1, E2.
  - intros t0 t1 E. apply intersect_Some_eq in E.
    destruct E as (_ & _ & -> & ->).
    split; [reflexivity|]. split; [reflexivity|].
    apply sub_le_add. apply sqrt_nonneg.
Qed.
End IntersectFacts.

(** ** The nearest-hit search *)

Section NearestHitFacts.
Context {T : Type} `{Float T} `{CMath T}.

Local Open Scope float_scope.

Lemma nearest_step_no_candidate rayorig raydir s (sp : option (Sphere T)) :
  no_candidate rayorig raydir s ->
  nearest_step rayorig raydir (INFINITY, sp) s = (INFINITY, sp).
Proof.
  unfold nearest_step. intros [E | (t0 & t1 & E & L)]; rewrite E.
  - reflexivity.
  - simpl. now rewrite L.
Qed.

Lemma nearest_hit_none rayorig raydir (spheres : list (Sphere T)) :
  (forall s, In s spheres -> no_candidate rayorig raydir s) ->
  nearest_hit rayorig raydir spheres = (INFINITY, None).
Proof.
  unfold nearest_hit. generalize (@None (Sphere T)) as sp.
  induction spheres as [|s rest IH]; intros sp A; simpl; [reflexivity|].
  rewrite nearest_step_no_candidate by (apply A; now left).
  apply IH. intros s' I. apply A. now right.
Qed.

(** The sphere the search ends with is one of the scene, and the
    distance kept with it is the one used for that sphere. *)
Lemma nearest_fold_sound rayorig raydir (l : list (Sphere T)) :
  forall st t s,
    fold_left (nearest_step rayorig raydir) l st = (t, Some s) ->
    st = (t, Some s) \/
    (In s l /\ exists t0 t1, intersect s rayorig raydir = Some (t0, t1) /\
                             t = used_distance t0 t1).
Proof.
  induction l as [|a l IH]; intros st t s E; simpl in E; [now left|].
  apply IH in E. destruct E as [E | (I & E)].
  - unfold nearest_step in E.
    destruct (intersect a rayorig raydir) as [[t0 t1]|] eqn:X; [|now left].
    destruct (used_distance t0 t1 <? fst st); [|now left].
    injection E as <- <-. right. split; [now left|]. now exists t0, t1.
  - right. split; [now right | exact E].
Qed.

Lemma nearest_hit_sound rayorig raydir (spheres : list (Sphere T)) t s :
  nearest_hit rayorig raydir spheres = (t, Some s) ->
  In s spheres /\
  exists t0 t1, intersect s rayorig raydir = Some (t0, t1) /\
                t = used_distance t0 t1.
Proof.
  intro E. apply nearest_fold_sound in E.
  destruct E as [E | E]; [discriminate | exact E].
Qed.

Lemma trace_body_background limit self rayorig raydir
    (spheres : list (Sphere T)) depth t :
  nearest_hit rayorig raydir spheres = (t, None) ->
  trace_body limit self rayorig raydir spheres depth =
  Some (Vec3_splat (of_int 2)).
Proof. intro E. unfold trace_body. now rewrite E. Qed.

(** C4.  When every sphere of the scene is missed by the ray, or is hit
    at a distance that does not beat the initial [INFINITY], [trace]
    returns the background colour (2, 2, 2), whatever the origin, the
    direction and the depth. *)
Theorem trace_background rayorig raydir (spheres : list (Sphere T)) :
  (forall s, In s spheres -> no_candidate rayorig raydir s) ->
  forall depth : Z,
    trace rayorig raydir spheres depth =
      Some (mkVec3 (of_int 2) (of_int 2) (of_int 2)) /\
    forall limit fuel,
      trace_fuel limit (S fuel) rayorig raydir spheres depth =
        Some (mkVec3 (of_int 2) (of_int 2) (of_int 2)).
Proof.
  intros A depth. apply nearest_hit_none in A.
  split; [unfold trace, trace_levels | intros limit fuel]; simpl;
    eapply trace_body_background; exact A.
Qed.
End NearestHitFacts.

Section NearestHitOrder.
Context {T : Type} `{FloatLaws T} `{CMath T}.

Local Open Scope float_scope.

Lemma intersect_far_end_nonneg (s : Sphere T) rayorig raydir t0 t1 :
  intersect s rayorig raydir = Some (t0, t1) ->
  (t1 <? of_int 0) = false.
Proof.
  intro E. apply intersect_Some_eq in E. destruct E as (A & _ & _ & ->).
  apply add_nonneg; [exact A | apply sqrt_nonneg].
Qed.

Lemma used_distance_nonneg (s : Sphere T) rayorig raydir t0 t1 :
  intersect s rayorig raydir = Some (t0, t1) ->
  (used_distance t0 t1 <? of_int 0) = false.
Proof.
  intro E. unfold used_distance.
  destruct (t0 <? of_int 0) eqn:L; [|exact L].
  exact (intersect_far_end_nonneg _ _ _ E).
Qed.

Lemma nearest_step_nonneg rayorig raydir st (s : Sphere T) :
  (fst st <? of_int 0) = false ->
  (fst (nearest_step rayorig raydir st s) <? of_int 0) = false.
Proof.
  intro P. unfold nearest_step.
  destruct (intersect s rayorig raydir) as [[t0 t1]|] eqn:E; [|exact P].
  destruct (used_distance t0 t1 <? fst st); [|exact P].
  simpl. exact (used_distance_nonneg _ _ _ E).
Qed.

Lemma nearest_fold_nonneg rayorig raydir (l : list (Sphere T)) :
  forall st, (fst st <? of_int 0) = false ->
  (fst (fold_left (nearest_step rayorig raydir) l st) <? of_int 0) = false.
Proof.
  induction l as [|a l IH]; intros st P; simpl; [exact P|].
  apply IH. now apply nearest_step_nonneg.
Qed.

(** C9.  The distance tracked by the nearest-hit search is never
    negative.  When [intersect] reports a hit its [t1] is not negative,
    so neither is the distance used for that sphere ([t0], or [t1] when
    [t0] is negative); the tracked distance is not negative after any
    number of iterations; and when the search ends on a sphere, [tnear]
    is the distance used for that sphere and is not negative. *)
Theorem tnear_never_negative rayorig raydir (spheres : list (Sphere T)) :
  (forall s t0 t1, intersect s rayorig raydir = Some (t0, t1) ->
     (t1 <? of_int 0) = false /\
     ((if t0 <? of_int 0 then t1 else t0) <? of_int 0) = false) /\
  (forall n,
     (fst (nearest_hit rayorig raydir (firstn n spheres)) <? of_int 0)
     = false) /\
  (forall tnear s,
     nearest_hit rayorig raydir spheres = (tnear, Some s) ->
     (tnear <? of_int 0) = false /\ In s spheres /\
     exists t0 t1, intersect s rayorig raydir = Some (t0, t1) /\
                   tnear = if t0 <? of_int 0 then t1 else t0).
Proof.
  split; [|split].
  - intros s t0 t1 E. split.
    + exact (intersect_far_end_nonneg _ _ _ E).
    + exact (used_distance_nonneg _ _ _ E).
  - intro n. apply nearest_fold_nonneg. exact INFINITY_nonneg.
  - intros tnear s E. apply nearest_hit_sound in E.
    destruct E as (I & t0 & t1 & E & ->).
    split; [exact (used_distance_nonneg _ _ _ E)|].
    split; [exact I|]. now exists t0, t1.
Qed.
End NearestHitOrder.

(** ** The recursion of trace *)

Section TraceRecursion.
Context {T : Type} `{Float T} `{CMath T}.

Local Open Scope float_scope.

(** The body calls itself only when [depth < limit], and then only at
    [depth + 1] on the same scene. *)
Lemma trace_body_guard limit self self' rayorig raydir
    (spheres : list (Sphere T)) depth :
  ((depth < limit)%Z ->
   forall o d, self o d spheres (depth + 1)%Z
               = self' o d spheres (depth + 1)%Z) ->
  trace_body limit self rayorig raydir spheres depth =
  trace_body limit self' rayorig raydir spheres depth.
Proof.
  intro A. unfold trace_body.
  destruct (nearest_hit rayorig raydir spheres) as [tnear [sphere|]];
    [|reflexivity].
  destruct (hit_normal sphere raydir (hit_point rayorig raydir tnear))
    as [nhit inside].
  destruct (depth <? limit)%Z eqn:G.
  - apply Z.ltb_lt in G. rewrite !(A G). reflexivity.
  - rewrite andb_false_r. reflexivity.
Qed.

Lemma trace_fuel_total limit (spheres : list (Sphere T)) :
  forall fuel rayorig raydir depth,
    (Z.to_nat (limit - depth) < fuel)%nat ->
    exists c, trace_fuel limit fuel rayorig raydir spheres depth = Some c.
Proof.
  induction fuel as [|fuel IH]; intros rayorig raydir depth F; [lia|].
  simpl. unfold trace_body.
  destruct (nearest_hit rayorig raydir spheres) as [tnear [sphere|]];
    [|eauto].
  destruct (hit_normal sphere raydir (hit_point rayorig raydir tnear))
    as [nhit inside].
  destruct (depth <? limit)%Z eqn:G.
  - apply Z.ltb_lt in G.
    assert (F' : (Z.to_nat (limit - (depth + 1)) < fuel)%nat) by lia.
    destruct (_ || _); simpl; [|eauto].
    edestruct IH as [c1 ->]; [exact F'|].
    destruct (negb _); [|eauto].
    edestruct IH as [c2 ->]; [exact F'|]. eauto.
  - rewrite andb_false_r. eauto.
Qed.

Lemma trace_fuel_stable limit (spheres : list (Sphere T)) :
  forall fuel fuel' rayorig raydir depth,
    (Z.to_nat (limit - depth) < fuel)%nat ->
    (Z.to_nat (limit - depth) < fuel')%nat ->
    trace_fuel limit fuel rayorig raydir spheres depth =
    trace_fuel limit fuel' rayorig raydir spheres depth.
Proof.
  induction fuel as [|fuel IH]; intros fuel' rayorig raydir depth F F';
    [lia|].
  destruct fuel' as [|fuel']; [lia|]. simpl.
  apply trace_body_guard. intros G o d. apply IH; lia.
Qed.

(** C5.  [trace] returns a colour on every input.  Its body calls
    itself only under the guard [depth < 5] and with [depth + 1]; so
    [5 - depth] nested calls below the first activation are always
    enough, and a call with a depth that is not negative, as every call
    of the driver is, never nests more than five. *)
Theorem trace_total rayorig raydir (spheres : list (Sphere T)) depth :
  (forall self self',
      ((depth < MAX_RAY_DEPTH)%Z ->
       forall o d, self o d spheres (depth + 1)%Z
                   = self' o d spheres (depth + 1)%Z) ->
      trace_body MAX_RAY_DEPTH self rayorig raydir spheres depth =
      trace_body MAX_RAY_DEPTH self' rayorig raydir spheres depth) /\
  exists c,
    trace rayorig raydir spheres depth = Some c /\
    (forall fuel, (trace_levels MAX_RAY_DEPTH depth <= fuel)%nat ->
       trace_fuel MAX_RAY_DEPTH fuel rayorig raydir spheres depth = Some c) /\
    ((0 <= depth)%Z ->
     trace_fuel MAX_RAY_DEPTH 6 rayorig raydir spheres depth = Some c).
Proof.
  split; [intros self self'; apply trace_body_guard|].
  destruct (@trace_fuel_total MAX_RAY_DEPTH spheres
              (trace_levels MAX_RAY_DEPTH depth) rayorig raydir depth)
    as [c E]; [unfold trace_levels; lia|].
  exists c. split; [exact E|]. split.
  - intros fuel F. rewrite <- E.
    apply trace_fuel_stable; unfold trace_levels in *; lia.
  - intro P. rewrite <- E.
    apply trace_fuel_stable; unfold trace_levels, MAX_RAY_DEPTH; lia.
Qed.

(** A sphere that is neither transparent nor reflective. *)
Lemma trace_body_opaque limit limit' self self' rayorig raydir
    (spheres : list (Sphere T)) depth depth' :
  (forall s, In s spheres ->
     (transparency s >? of_int 0) = false /\
     (reflection s >? of_int 0) = false) ->
  trace_body limit self rayorig raydir spheres depth =
  trace_body limit' self' rayorig raydir spheres depth'.
Proof.
  intro A. unfold trace_body.
  destruct (nearest_hit rayorig raydir spheres) as [tnear [sphere|]] eqn:N;
    [|reflexivity].
  apply nearest_hit_sound in N. destruct N as [I _].
  destruct (A _ I) as [-> ->]. reflexivity.
Qed.

(** C6.  When every sphere of the scene has reflectivity 0 and
    transparency 0, the colour does not depend on the depth argument nor
    on the recursion limit: [trace] with limit 50 and [trace] with
    limit 5 return the same colour on every ray. *)
Theorem depth_irrelevant_when_opaque (spheres : list (Sphere T)) :
  ((of_int 0 : T) <? of_int 0) = false ->
  (forall s, In s spheres ->
     reflection s = of_int 0 /\ transparency s = of_int 0) ->
  forall rayorig raydir depth depth',
    trace_fuel 50 (trace_levels 50 depth) rayorig raydir spheres depth =
      trace rayorig raydir spheres depth' /\
    forall limit limit' fuel fuel',
      trace_fuel limit (S fuel) rayorig raydir spheres depth =
      trace_fuel limit' (S fuel') rayorig raydir spheres depth'.
Proof.
  intros Z A rayorig raydir depth depth'.
  assert (O : forall s, In s spheres ->
              (transparency s >? of_int 0) = false /\
              (reflection s >? of_int 0) = false).
  { intros s I. destruct (A _ I) as [-> ->]. now split. }
  split; [unfold trace, trace_levels | intros limit limit' fuel fuel'];
    simpl; now apply trace_body_opaque.
Qed.
End TraceRecursion.

(** ** The shadow test *)

Section ShadowFacts.
Context {T : Type} `{Float T} `{CMath T}.

Local Open Scope float_scope.

Lemma shadow_loop_clear i orig dir (rest : list (Sphere T)) :
  forall j,
    (forall k sk, nth_error rest k = Some sk -> (j + k)%nat <> i ->
                  intersect sk orig dir = None) ->
    shadow_loop i orig dir j rest
    = (Vec3_splat (of_int 1), others i j (List.length rest)).
Proof.
  induction rest as [|sj rest IH]; intros j A; [reflexivity|].
  assert (A' : forall k sk, nth_error rest k = Some sk ->
                 (S j + k)%nat <> i -> intersect sk orig dir = None).
  { intros k sk E N. apply (A (S k) sk E). lia. }
  unfold others. simpl. destruct (i =? j)%nat eqn:E; simpl.
  - now rewrite (IH _ A').
  - rewrite (A 0%nat sj eq_refl)
      by (apply Nat.eqb_neq in E; lia).
    now rewrite (IH _ A').
Qed.

Lemma shadow_loop_first i orig dir (rest : list (Sphere T)) :
  forall k j sk,
    nth_error rest k = Some sk -> (j + k)%nat <> i ->
    intersect sk orig dir <> None ->
    (forall k' sk', (k' < k)%nat -> nth_error rest k' = Some sk' ->
                    (j + k')%nat <> i -> intersect sk' orig dir = None) ->
    shadow_loop i orig dir j rest
    = (Vec3_splat (of_int 0), others i j (S k)).
Proof.
  induction rest as [|sj rest IH]; intros k j sk E N X A;
    [destruct k; discriminate|].
  unfold others. destruct k as [|k].
  - injection E as ->. simpl.
    replace (i =? j)%nat with false
      by (symmetry; apply Nat.eqb_neq; lia).
    simpl. destruct (intersect sk orig dir); [reflexivity | congruence].
  - simpl in E.
    assert (R : shadow_loop i orig dir (S j) rest
                = (Vec3_splat (of_int 0), others i (S j) (S k))).
    { apply (IH k (S j) sk E); [lia | exact X |].
      intros k' sk' L E' N'. apply (A (S k') sk'); [lia | exact E' | lia]. }
    change (seq j (S (S k))) with (j :: seq (S j) (S k)).
    cbn [shadow_loop filter]. destruct (i =? j)%nat eqn:Q; cbn [negb].
    + exact R.
    + apply Nat.eqb_neq in Q.
      rewrite (A 0%nat sj) by (lia || reflexivity).
      now rewrite R.
Qed.

Lemma shadow_loop_occluded i orig dir (rest : list (Sphere T)) :
  forall k j sk,
    nth_error rest k = Some sk -> (j + k)%nat <> i ->
    intersect sk orig dir <> None ->
    fst (shadow_loop i orig dir j rest) = Vec3_splat (of_int 0).
Proof.
  induction rest as [|sj rest IH]; intros k j sk E N X;
    [destruct k; discriminate|].
  simpl. destruct k as [|k].
  - injection E as ->.
    replace (i =? j)%nat with false
      by (symmetry; apply Nat.eqb_neq; lia).
    simpl. destruct (intersect sk orig dir); [reflexivity | congruence].
  - simpl in E.
    assert (R : fst (shadow_loop i orig dir (S j) rest)
                = Vec3_splat (of_int 0))
      by (apply (IH k (S j) sk E); [lia | exact X]).
    destruct (i =? j)%nat; simpl; [exact R|].
    destruct (intersect sj orig dir); [reflexivity|].
    destruct (shadow_loop i orig dir (S j) rest). exact R.
Qed.

(** C10.  For light [i] the occlusion search leaves out index [i] and
    nothing else.  If no other sphere meets the shadow ray, every other
    index is tested and the transmission is 1.  Otherwise the indices
    other than [i] are tested in order up to the first sphere that meets
    the ray and no further, and the transmission is 0; any sphere other
    than [i] that meets the ray, the shaded one included, makes it 0.
    The shading term of light [i] uses this transmission for the ray
    that leaves the biased hit point towards the centre of the light. *)
Theorem shadow_test_spec (spheres : list (Sphere T)) (i : nat)
    (orig dir : Vec3 T) :
  ((forall k sk, nth_error spheres k = Some sk -> k <> i ->
                 intersect sk orig dir = None) ->
   shadow_loop i orig dir 0 spheres
   = (Vec3_splat (of_int 1), others i 0 (List.length spheres))) /\
  (forall k sk,
     nth_error spheres k = Some sk -> k <> i ->
     intersect sk orig dir <> None ->
     (forall k' sk', (k' < k)%nat -> nth_error spheres k' = Some sk' ->
                     k' <> i -> intersect sk' orig dir = None) ->
     shadow_loop i orig dir 0 spheres
     = (Vec3_splat (of_int 0), others i 0 (S k))) /\
  (forall k sk,
     nth_error spheres k = Some sk -> k <> i ->
     intersect sk orig dir <> None ->
     transmission spheres i orig dir = Vec3_splat (of_int 0)) /\
  (forall sphere phit nhit si,
     light_term sphere phit nhit spheres i si =
     (getColor sphere phit
      * transmission spheres i (phit + nhit *. bias)
          (normalize (center si - phit))
      *. std_max (of_int 0) (dot nhit (normalize (center si - phit)))
      * emissionColor si)%V).
Proof.
  split; [|split; [|split]].
  - intro A. now apply shadow_loop_clear.
  - intros k sk E N X A. now apply shadow_loop_first with (sk := sk).
  - intros k sk E N X. unfold transmission.
    now apply shadow_loop_occluded with (k := k) (sk := sk).
  - reflexivity.
Qed.
End ShadowFacts.

(** ** Direct illumination *)

Section LightFacts.
Context {T : Type} `{Float T} `{CMath T}.

Local Open Scope float_scope.

Lemma light_loop_fold sphere phit nhit (spheres rest : list (Sphere T)) :
  forall i acc,
    light_loop sphere phit nhit spheres i rest acc =
    fold_left vadd
      (map (fun p => light_term sphere phit nhit spheres (fst p) (snd p))
         (filter (fun p => x (emissionColor (snd p)) >? of_int 0)
            (combine (seq i (List.length rest)) rest)))
      acc.
Proof.
  induction rest as [|si rest IH]; intros i acc; [reflexivity|].
  simpl. rewrite IH.
  destruct (x (emissionColor si) >? of_int 0); reflexivity.
Qed.

Lemma light_loop_dark sphere phit nhit (spheres rest : list (Sphere T)) :
  (forall s, In s rest -> (x (emissionColor s) >? of_int 0) = false) ->
  forall i acc, light_loop sphere phit nhit spheres i rest acc = acc.
Proof.
  induction rest as [|si rest IH]; intros A i acc; [reflexivity|].
  simpl. rewrite (A si) by now left.
  apply IH. intros s I. apply A. now right.
Qed.

(** C1, as the code has it.  The spheres the direct-illumination step
    treats as lights are those whose emission colour has a positive
    first channel, and only those: the surface colour is the sum, in
    scene order, of the terms of these spheres, each lit from the
    centre of its sphere; a sphere whose first emission channel is not
    positive adds nothing, whatever its other two channels. *)
Theorem lights_by_first_channel sphere phit nhit
    (spheres : list (Sphere T)) :
  direct_illumination sphere phit nhit spheres =
    fold_left vadd
      (map (fun p => light_term sphere phit nhit spheres (fst p) (snd p))
         (lights spheres))
      (Vec3_splat (of_int 0)) /\
  (forall i si,
     In (i, si) (lights spheres) <->
     nth_error spheres i = Some si /\
     (x (emissionColor si) >? of_int 0) = true) /\
  (forall i si,
     light_term sphere phit nhit spheres i si =
     (getColor sphere phit
      * transmission spheres i (phit + nhit *. bias)
          (normalize (center si - phit))
      *. std_max (of_int 0) (dot nhit (normalize (center si - phit)))
      * emissionColor si)%V) /\
  ((forall s, In s spheres -> (x (emissionColor s) >? of_int 0) = false) ->
   direct_illumination sphere phit nhit spheres = Vec3_splat (of_int 0)).
Proof.
  split; [apply light_loop_fold|]. split; [|split].
  - intros i si. unfold lights. rewrite filter_In. simpl.
    enough (In (i, si) (combine (seq 0 (List.length spheres)) spheres)
            <-> nth_error spheres i = Some si) by tauto.
    assert (G : forall (l : list (Sphere T)) j,
               In (i, si) (combine (seq j (List.length l)) l) <->
               (j <= i)%nat /\ nth_error l (i - j) = Some si).
    { induction l as [|a l IH]; intro j; simpl.
      - split; [tauto|]. intros [_ E]. destruct (i - j)%nat; discriminate.
      - rewrite IH. split.
        + intros [[= <- <-] | [L E]].
          * split; [lia|]. now rewrite Nat.sub_diag.
          * split; [lia|]. replace (i - j)%nat with (S (i - S j)) by lia.
            exact E.
        + intros [L E]. destruct (i - j)%nat as [|m] eqn:D.
          * left. injection E as ->. f_equal. lia.
          * right. split; [lia|]. replace (i - S j)%nat with m by lia.
            exact E. }
    rewrite (G spheres 0%nat), Nat.sub_0_r.
    split; [tauto | intro E; split; [lia | exact E]].
  - reflexivity.
  - intro A. now apply light_loop_dark.
Qed.
End LightFacts.

Section SingleLight.
Context {T : Type} `{FloatLaws T} `{CMath T}.

Local Open Scope float_scope.

Lemma direct_illumination_single (s l : Sphere T) spheres phit nhit :
  spheres = [s; l] \/ spheres = [l; s] ->
  emissionColor s = Vec3_splat (of_int 0) ->
  texture s = [] ->
  (x (emissionColor l) >? of_int 0) = true ->
  intersect s (phit + nhit *. bias)%V (normalize (center l - phit)) = None ->
  direct_illumination s phit nhit spheres =
  (surfaceColor s
   *. std_max (of_int 0) (dot nhit (normalize (center l - phit)))
   * emissionColor l)%V.
Proof.
  intros O Es Ts El X.
  assert (D : (x (emissionColor s) >? of_int 0) = false)
    by (rewrite Es; apply flt_irrefl).
  assert (G : getColor s phit = surfaceColor s)
    by (unfold getColor; now rewrite Ts).
  unfold direct_illumination.
  destruct O as [-> | ->]; simpl; rewrite D, El;
    unfold light_term, transmission; simpl; rewrite X, G; simpl;
    now rewrite Vec3_mul_1_r, Vec3_add_0_l.
Qed.

(** C2.  In a scene made of one opaque sphere (reflectivity 0,
    transparency 0) that emits nothing and has no texture, and of one
    light, for a ray whose nearest hit is on the opaque sphere and with
    the light not occluded, [trace] returns the surface colour scaled by
    [max(0, N . L)] and multiplied by the emission of the light, [N]
    being the normal at the hit point and [L] the normalized direction
    from the hit point to the centre of the light; the result is the
    same for every depth. *)
Theorem single_light_shading (s l : Sphere T) spheres rayorig raydir tnear :
  spheres = [s; l] \/ spheres = [l; s] ->
  reflection s = of_int 0 ->
  transparency s = of_int 0 ->
  emissionColor s = Vec3_splat (of_int 0) ->
  texture s = [] ->
  (x (emissionColor l) >? of_int 0) = true ->
  nearest_hit rayorig raydir spheres = (tnear, Some s) ->
  let phit := hit_point rayorig raydir tnear in
  let N := fst (hit_normal s raydir phit) in
  let L := normalize (center l - phit) in
  intersect s (phit + N *. bias)%V L = None ->
  forall depth : Z,
    trace rayorig raydir spheres depth =
      Some (surfaceColor s *. std_max (of_int 0) (dot N L)
            * emissionColor l)%V /\
    forall limit fuel,
      trace_fuel limit (S fuel) rayorig raydir spheres depth =
        Some (surfaceColor s *. std_max (of_int 0) (dot N L)
              * emissionColor l)%V.
Proof.
  intros O Rs Ts Es Xs El Near phit N L X depth.
  assert (B : forall limit self,
             trace_body limit self rayorig raydir spheres depth =
             Some (surfaceColor s *. std_max (of_int 0) (dot N L)
                   * emissionColor l)%V).
  { intros limit self. unfold trace_body. rewrite Near.
    fold phit. subst N.
    destruct (hit_normal s raydir phit) as [nhit inside]. simpl in X.
    rewrite Rs, Ts, flt_irrefl. simpl.
    rewrite direct_illumination_single with (l := l) by assumption.
    now rewrite Es, Vec3_add_0_r. }
  split; [unfold trace, trace_levels | intros limit fuel]; simpl; apply B.
Qed.
End SingleLight.

(** ** Sphere::getColor *)

Section TextureFacts.
Context {T : Type} `{Float T} `{CMath T}.

Lemma clamp_index (n r : Z) :
  (1 <= n)%Z ->
  std_min_int (n - 1) (std_max_int 0 r) = Z.min (n - 1) (Z.max 0 r) /\
  (0 <= std_min_int (n - 1) (std_max_int 0 r) < n)%Z.
Proof.
  intro P. unfold std_min_int, std_max_int.
  destruct (0 <? r)%Z eqn:A; [apply Z.ltb_lt in A | apply Z.ltb_ge in A].
  - destruct (r <? n - 1)%Z eqn:B;
      [apply Z.ltb_lt in B | apply Z.ltb_ge in B]; lia.
  - destruct (0 <? n - 1)%Z eqn:B;
      [apply Z.ltb_lt in B | apply Z.ltb_ge in B]; lia.
Qed.

Lemma texel_in_bounds (s : Sphere T) (xi yi : Z) :
  texture_loaded s ->
  (0 <= xi < textureWidth s)%Z -> (0 <= yi < textureHeight s)%Z ->
  exists c, texel (texture s) xi yi = Some c.
Proof.
  intros [Lh Lw] Bx By. unfold texel.
  replace (yi <? 0)%Z with false by (symmetry; apply Z.ltb_ge; lia).
  replace (xi <? 0)%Z with false by (symmetry; apply Z.ltb_ge; lia).
  simpl.
  destruct (nth_error (texture s) (Z.to_nat yi)) as [row|] eqn:R.
  - destruct (nth_error row (Z.to_nat xi)) as [c|] eqn:C; [eauto|].
    apply nth_error_None in C. apply nth_error_In in R.
    rewrite (Lw _ R) in C. lia.
  - apply nth_error_None in R. rewrite Lh in R. lia.
Qed.

(** C8.  For a sphere with a texture of width and height at least 1, the
    pixel indices that [getColor] computes lie in [0, width) and
    [0, height) for every point: each is the truncated product clamped
    to the valid range, whatever the values of [u] and [v], so the
    lookup in a texture of that width and height is inside it. *)
Theorem texture_index_in_bounds (s : Sphere T) (phit : Vec3 T) :
  texture s <> [] ->
  (1 <= textureWidth s)%Z -> (1 <= textureHeight s)%Z ->
  let xi := fst (texture_index s phit) in
  let yi := snd (texture_index s phit) in
  (0 <= xi < textureWidth s)%Z /\ (0 <= yi < textureHeight s)%Z /\
  xi = Z.min (textureWidth s - 1)
         (Z.max 0 (to_int (texture_u s phit
                           * of_int (textureWidth s))%F)) /\
  yi = Z.min (textureHeight s - 1)
         (Z.max 0 (to_int (texture_v s phit
                           * of_int (textureHeight s))%F)) /\
  (texture_loaded s ->
   exists c, texel (texture s) xi yi = Some c /\ getColor s phit = c).
Proof.
  intros NE W Hh xi yi.
  destruct (clamp_index (to_int (texture_u s phit
                                 * of_int (textureWidth s))%F) W)
    as [Ex Bx].
  destruct (clamp_index (to_int (texture_v s phit
                                 * of_int (textureHeight s))%F) Hh)
    as [Ey By].
  split; [exact Bx|]. split; [exact By|].
  split; [exact Ex|]. split; [exact Ey|].
  intro Ld. destruct (texel_in_bounds Ld Bx By) as [c E].
  exists c. split; [exact E|].
  unfold getColor. destruct (texture s) as [|row tex] eqn:Tx;
    [congruence|].
  unfold xi, yi, texture_index in E. simpl in E.
  unfold texture_index. rewrite E. reflexivity.
Qed.
End TextureFacts.

(** ** The theorems at work on the scenes *)

Import Scenes FloatScenes.

Ltac evaluate := vm_compute; reflexivity.

(** [normalize] on the vector (0, 3, 4), of squared length 25. *)
Lemma normalize_guarded_witness :
  (length2 (vec 0 3 4) >? of_int 0)%F = true /\
  normalize (vec 0 3 4) =
    mkVec3 (x (vec 0 3 4) * (of_int 1 / sqrt (length2 (vec 0 3 4))))%F
           (y (vec 0 3 4) * (of_int 1 / sqrt (length2 (vec 0 3 4))))%F
           (z (vec 0 3 4) * (of_int 1 / sqrt (length2 (vec 0 3 4))))%F /\
  observe (normalize (vec 0 3 4)) = (0, 3 # 5, 4 # 5)%Q /\
  normalize_divisor (vec 0 3 4) <> Some (of_int 0).
Proof.
  destruct (normalize_guarded (vec 0 3 4)) as (_ & _ & S & _ & D).
  split; [evaluate|]. split; [apply S; evaluate|]. split; [evaluate|].
  intro E. exact (D _ E eq_refl).
Defined.

(** A ray that starts inside the big ball with the centre behind it finds
    no intersection; the ray of the camera meets the ball at distances 4
    and 6. *)
Lemma intersect_spec_witness :
  intersect big_ball inner forward = None /\
  exists t0 t1,
    intersect ball eye forward = Some (t0, t1) /\
    (this t0, this t1) = (4, 6)%Q /\
    (t1 <? t0)%F = false.
Proof.
  destruct (intersect_spec big_ball inner forward) as (_ & Behind & _ & _).
  destruct (intersect_spec ball eye forward) as (_ & _ & Hit & Order).
  split; [apply Behind; evaluate|].
  eexists. eexists. split; [apply Hit; evaluate|].
  split; [evaluate|].
  apply (Order _ _ (Hit eq_refl eq_refl)).
Defined.

(** C3, as the spec words it, fails in [float] on a sphere of radius
    [2^-24] at distance 1 on the axis of the ray.  [tca] is 1, [d2] is 0
    and [thc] is [2^-24]; [t0 = tca - thc] is the float below 1, and
    [t1 = tca + thc] rounds to 1, which is [tca]: [t0] is at the
    distance [thc] from [tca] and [t1] at the distance 0. *)
Lemma speck_distances_not_symmetric :
  let l := (center speck - eye32)%V in
  let tca := dot l forward32 in
  let d2 := (dot l l - tca * tca)%F in
  let thc := sqrt (radius2 speck - d2)%F in
  intersect speck eye32 forward32 = Some ((tca - thc)%F, (tca + thc)%F) /\
  (tca = of_int 1 /\ d2 = of_int 0 /\ thc = lit (1 # 16777216)) /\
  (tca + thc)%F = tca /\
  (tca - (tca - thc))%F = thc /\
  ((tca + thc) - tca)%F = of_int 0 /\
  ((tca + thc) - tca)%F <> thc /\
  ((tca + thc) - tca)%F <> (tca - (tca - thc))%F.
Proof.
  intros l tca d2 thc.
  split; [evaluate|]. split; [repeat split; evaluate|].
  split; [evaluate|]. split; [evaluate|]. split; [evaluate|].
  split; intro E; vm_compute in E; discriminate.
Defined.

(** The search along the ray of the camera ends on the ball, at
    distance 4. *)
Lemma tnear_never_negative_witness :
  nearest_hit eye forward [ball; lamp]
    = (fst (nearest_hit eye forward [ball; lamp]), Some ball) /\
  this (fst (nearest_hit eye forward [ball; lamp])) = 4%Q /\
  (fst (nearest_hit eye forward [ball; lamp]) <? of_int 0)%F = false.
Proof.
  destruct (tnear_never_negative eye forward [ball; lamp]) as (_ & _ & Sel).
  assert (E : nearest_hit eye forward [ball; lamp]
              = (fst (nearest_hit eye forward [ball; lamp]), Some ball))
    by evaluate.
  split; [exact E|]. split; [evaluate|].
  exact (proj1 (Sel _ _ E)).
Defined.

(** A ray that looks away from the ball and the lamp. *)
Lemma trace_background_witness :
  trace eye backward [ball; lamp] 0
  = Some (mkVec3 (of_int 2) (of_int 2) (of_int 2)).
Proof.
  apply (@trace_background Qc _ _ eye backward [ball; lamp]).
  intros s [<- | [<- | []]]; left; evaluate.
Defined.

(** A ray inside the mirror ball, reflected at every hit. *)
Lemma trace_total_witness :
  exists c,
    trace eye forward [mirror] 0 = Some c /\
    trace_fuel MAX_RAY_DEPTH 6 eye forward [mirror] 0 = Some c.
Proof.
  destruct (trace_total eye forward [mirror] 0) as (_ & c & E & _ & Six).
  exists c. split; [exact E|]. apply Six. lia.
Defined.

(** The ball and the lamp are opaque: limit 50 at depth 0 and limit 5 at
    depth 3 give the same colour. *)
Lemma depth_irrelevant_when_opaque_witness :
  trace_fuel 50 (trace_levels 50 0) eye forward [ball; lamp] 0
  = trace eye forward [ball; lamp] 3.
Proof.
  apply (depth_irrelevant_when_opaque [ball; lamp]).
  - evaluate.
  - intros s [<- | [<- | []]]; split; reflexivity.
Defined.

(** Towards the lamp from the near side of the ball nothing is in the
    way; from behind the ball the ball itself is, and ends the search. *)
Lemma shadow_test_spec_witness :
  shadow_loop 1 (vec 0 0 (-4)) (vec 0 (3 # 5) (4 # 5)) 0 [ball; lamp]
  = (Vec3_splat (of_int 1), [0%nat]) /\
  shadow_loop 1 (vec 0 0 (-7)) backward 0 [ball; lamp]
  = (Vec3_splat (of_int 0), [0%nat]).
Proof.
  destruct (shadow_test_spec [ball; lamp] 1
              (vec 0 0 (-4)) (vec 0 (3 # 5) (4 # 5))) as (Clear & _).
  destruct (shadow_test_spec [ball; lamp] 1 (vec 0 0 (-7)) backward)
    as (_ & First & _).
  split.
  - apply Clear. intros [|[|k]] sk E N; simpl in E; try congruence.
    + injection E as <-. evaluate.
    + destruct k; discriminate.
  - apply (First 0%nat ball).
    + reflexivity.
    + lia.
    + discriminate.
    + intros k' sk' L. lia.
Defined.

(** A scene in which no sphere emits in the first channel is dark. *)
Lemma lights_by_first_channel_witness :
  direct_illumination ball (vec 0 0 (-4)) backward [ball; green_lamp]
  = Vec3_splat (of_int 0).
Proof.
  apply (lights_by_first_channel ball (vec 0 0 (-4)) backward
           [ball; green_lamp]).
  intros s [<- | [<- | []]]; evaluate.
Defined.

(** C1, as the spec words it, fails on the ball under the green lamp.
    The green lamp has a positive emission component, it is in full view
    of the point shaded on the ball, and it adds nothing: the surface
    colour is black where the lamp taken as a light would give
    (0, 6/5, 0), and [trace] returns black. *)
Lemma green_lamp_is_no_light :
  has_positive_emission green_lamp = true /\
  transmission [ball; green_lamp] 1
    (vec 0 0 (-4) + backward *. bias)%V
    (normalize (center green_lamp - vec 0 0 (-4))%V)
  = Vec3_splat (of_int 1) /\
  observe (direct_illumination ball (vec 0 0 (-4)) backward
             [ball; green_lamp]) = (0, 0, 0)%Q /\
  observe (direct_illumination_any_channel ball (vec 0 0 (-4)) backward
             [ball; green_lamp]) = (0, 6 # 5, 0)%Q /\
  direct_illumination ball (vec 0 0 (-4)) backward [ball; green_lamp]
  <> direct_illumination_any_channel ball (vec 0 0 (-4)) backward
       [ball; green_lamp] /\
  option_map observe (trace eye forward [ball; green_lamp] 0)
  = Some (0, 0, 0)%Q.
Proof.
  split; [evaluate|]. split; [evaluate|]. split; [evaluate|].
  split; [evaluate|]. split; [|evaluate].
  intro E. apply (f_equal observe) in E. vm_compute in E. discriminate.
Defined.

(** The ball under the white lamp, seen along the axis of the camera. *)
Lemma single_light_shading_witness :
  let tnear := fst (nearest_hit eye forward [ball; lamp]) in
  let phit := hit_point eye forward tnear in
  observe phit = (0, 0, -4)%Q /\
  trace eye forward [ball; lamp] 0
  = Some (surfaceColor ball
          *. std_max (of_int 0)
               (dot (fst (hit_normal ball forward phit))
                    (normalize (center lamp - phit)))
          * emissionColor lamp)%V /\
  option_map observe (trace eye forward [ball; lamp] 0)
  = Some (12 # 5, 6 # 5, 3 # 5)%Q.
Proof.
  intros tnear phit. split; [evaluate|]. split; [|evaluate].
  apply (@single_light_shading Qc _ _ _ ball lamp [ball; lamp]
           eye forward tnear).
  - now left.
  - reflexivity.
  - reflexivity.
  - reflexivity.
  - reflexivity.
  - evaluate.
  - evaluate.
  - evaluate.
Defined.

(** C2, as the spec words it, fails on the ball under the green lamp.
    The ball is opaque, emits nothing and has no texture; it is the
    nearest hit of the ray; the green lamp emits, in its second channel,
    and nothing stands between it and the point shaded.  The formula
    gives (0, 6/5, 0), and [trace] returns black at every depth: the
    lamp is no light for the loop, which looks at the first channel. *)
Lemma green_lamp_leaves_the_ball_dark :
  let spheres := [ball; green_lamp] in
  let tnear := fst (nearest_hit eye forward spheres) in
  let phit := hit_point eye forward tnear in
  let N := fst (hit_normal ball forward phit) in
  let L := normalize (center green_lamp - phit) in
  (reflection ball = of_int 0 /\ transparency ball = of_int 0 /\
   emissionColor ball = Vec3_splat (of_int 0) /\ texture ball = []) /\
  has_positive_emission green_lamp = true /\
  nearest_hit eye forward spheres = (tnear, Some ball) /\
  intersect ball (phit + N *. bias)%V L = None /\
  transmission spheres 1 (phit + N *. bias)%V L = Vec3_splat (of_int 1) /\
  observe (surfaceColor ball *. std_max (of_int 0) (dot N L)
           * emissionColor green_lamp)%V = (0, 6 # 5, 0)%Q /\
  option_map observe (trace eye forward spheres 0) = Some (0, 0, 0)%Q /\
  option_map observe (trace eye forward spheres 7) = Some (0, 0, 0)%Q /\
  trace eye forward spheres 0
  <> Some (surfaceColor ball *. std_max (of_int 0) (dot N L)
           * emissionColor green_lamp)%V.
Proof.
  intros spheres tnear phit N L.
  split; [repeat split; reflexivity|].
  split; [evaluate|]. split; [evaluate|]. split; [evaluate|].
  split; [evaluate|]. split; [evaluate|]. split; [evaluate|].
  split; [evaluate|].
  intro E. apply (f_equal (option_map observe)) in E.
  vm_compute in E. discriminate.
Defined.

(** The top of the globe maps to column 1 of row 0 of its texture. *)
Lemma texture_index_in_bounds_witness :
  texture_index globe (vec 0 1 0) = (1, 0)%Z /\
  (0 <= fst (texture_index globe (vec 0 1 0)) < textureWidth globe)%Z /\
  (0 <= snd (texture_index globe (vec 0 1 0)) < textureHeight globe)%Z /\
  getColor globe (vec 0 1 0) = vec 0 1 0.
Proof.
  destruct (texture_index_in_bounds globe (vec 0 1 0))
    as (Bx & By & _ & _ & Look).
  - discriminate.
  - simpl. lia.
  - simpl. lia.
  - split; [evaluate|]. split; [exact Bx|]. split; [exact By|].
    destruct Look as (c & E & ->).
    + split; [reflexivity|]. intros row [<- | [<- | []]]; reflexivity.
    + vm_compute in E. now injection E as <-.
Defined.

(** The count of five nested calls is for a call whose depth is not
    negative.  Started at depth -1 inside the mirror ball, [trace] nests
    six calls below the first activation: six activations are not enough
    and seven are. *)
Lemma nesting_from_negative_depth :
  trace_fuel MAX_RAY_DEPTH 6 eye forward [mirror] (-1) = None /\
  option_map observe (trace_fuel MAX_RAY_DEPTH 7 eye forward [mirror] (-1))
  = Some (0, 0, 0)%Q /\
  trace_levels MAX_RAY_DEPTH (-1) = 7%nat.
Proof. repeat split; evaluate. Qed.

(** ** Equality on the rationals *)

#[export] Instance Qc_FieldLaws : FieldLaws Qc.
Proof.
  split. intros a b. simpl. unfold QcFloat.eqb. rewrite Qceq_alt.
  destruct (a ?= b)%Qc; split; intro E; congruence.
Qed.

(** ** More consequences of the laws *)

Section OrderMoreFacts.
Context {T : Type} `{FloatLaws T}.

Local Open Scope float_scope.

Add Ring float_ring_order_more : f_ring.

Lemma fle_cases (a b : T) : a <= b -> (a <? b) = true \/ a = b.
Proof.
  unfold fle. intro L. destruct (flt_false_cases _ _ L) as [P | P]; auto.
Qed.

Lemma flt_fle (a b : T) : (a <? b) = true -> a <= b.
Proof. apply flt_asym. Qed.

Lemma flt_fle_trans (a b c : T) :
  (a <? b) = true -> b <= c -> (a <? c) = true.
Proof.
  intros L M. destruct (fle_cases M) as [P | <-]; [|exact L].
  exact (flt_trans _ _ _ L P).
Qed.

Lemma flt_neg_pos (a : T) : (a <? of_int 0) = true -> (of_int 0 <? - a) = true.
Proof.
  intro L. apply flt_add_mono with (c := - a) in L.
  replace (a + - a) with (of_int 0 : T) in L by ring.
  replace (of_int 0 + - a) with (- a) in L by ring. exact L.
Qed.

Lemma flt_pos_neg (a : T) : (of_int 0 <? a) = true -> (- a <? of_int 0) = true.
Proof.
  intro L. apply flt_add_mono with (c := - a) in L.
  replace (a + - a) with (of_int 0 : T) in L by ring.
  replace (of_int 0 + - a) with (- a) in L by ring. exact L.
Qed.

End OrderMoreFacts.

(** ** What the nearest-hit search selects *)

Section NearestHitSelection.
Context {T : Type} `{Float T}.

Local Open Scope float_scope.

Lemma nearest_fold_keeps_sphere rayorig raydir (l : list (Sphere T)) :
  forall t s, exists t' s',
    fold_left (nearest_step rayorig raydir) l (t, Some s) = (t', Some s').
Proof.
  induction l as [|a l IH]; intros t s; simpl; [eauto|].
  unfold nearest_step at 2.
  destruct (intersect a rayorig raydir) as [[t0 t1]|]; [|apply IH].
  destruct (used_distance t0 t1 <? fst (t, Some s)); apply IH.
Qed.

Lemma nearest_fold_none rayorig raydir (l : list (Sphere T)) :
  forall t r,
    fold_left (nearest_step rayorig raydir) l (t, None) = (r, None) ->
    r = t /\
    forall s, In s l ->
      intersect s rayorig raydir = None \/
      exists t0 t1, intersect s rayorig raydir = Some (t0, t1) /\
                    (used_distance t0 t1 <? t) = false.
Proof.
  induction l as [|a l IH]; intros t r E; simpl in E.
  - injection E as <-. split; [reflexivity | intros s []].
  - unfold nearest_step at 2 in E.
    destruct (intersect a rayorig raydir) as [[t0 t1]|] eqn:X.
    + simpl in E. destruct (used_distance t0 t1 <? t) eqn:L.
      * destruct (nearest_fold_keeps_sphere rayorig raydir l
                    (used_distance t0 t1) a) as (t' & s' & E').
        rewrite E' in E. discriminate.
      * destruct (IH _ _ E) as [-> A]. split; [reflexivity|].
        intros s [<- | I]; [right; eauto | now apply A].
    + destruct (IH _ _ E) as [-> A]. split; [reflexivity|].
      intros s [<- | I]; [now left | now apply A].
Qed.

(** X4.  The search ends without a sphere exactly when no sphere of the
    scene is a candidate: each is missed by the ray or is at a distance
    that does not beat [INFINITY]. *)
Theorem nearest_hit_none_iff rayorig raydir (spheres : list (Sphere T)) :
  snd (nearest_hit rayorig raydir spheres) = None <->
  forall s, In s spheres -> no_candidate rayorig raydir s.
Proof.
  split.
  - intros E s I. unfold nearest_hit in E.
    destruct (fold_left _ spheres (INFINITY, None)) as [r o] eqn:F.
    simpl in E. subst o. apply nearest_fold_none in F.
    destruct F as [_ A]. exact (A s I).
  - intro A. now rewrite nearest_hit_none by exact A.
Qed.
End NearestHitSelection.

Section NearestHitMinimal.
Context {T : Type} `{FloatLaws T}.

Local Open Scope float_scope.

(** The search from a state [st] over [l] either leaves the state as it
    is, every sphere of [l] that is hit being no nearer than [fst st], or
    ends on a sphere of [l] that is strictly nearer than [fst st] and
    than every sphere hit before it, and no farther than any after it. *)
Lemma nearest_fold_selects rayorig raydir (l : list (Sphere T)) :
  forall st,
    (fold_left (nearest_step rayorig raydir) l st = st /\
     forall s' t0' t1', In s' l ->
       intersect s' rayorig raydir = Some (t0', t1') ->
       fst st <= used_distance t0' t1') \/
    (exists pre s post t0 t1,
       l = pre ++ s :: post /\
       intersect s rayorig raydir = Some (t0, t1) /\
       fold_left (nearest_step rayorig raydir) l st
       = (used_distance t0 t1, Some s) /\
       (used_distance t0 t1 <? fst st) = true /\
       (forall s' t0' t1', In s' pre ->
          intersect s' rayorig raydir = Some (t0', t1') ->
          (used_distance t0 t1 <? used_distance t0' t1') = true) /\
       (forall s' t0' t1', In s' post ->
          intersect s' rayorig raydir = Some (t0', t1') ->
          used_distance t0 t1 <= used_distance t0' t1')).
Proof.
  induction l as [|a l IH]; intro st.
  - left. split; [reflexivity | intros s' t0' t1' []].
  - simpl.
    destruct (intersect a rayorig raydir) as [[ta0 ta1]|] eqn:X.
    + destruct (used_distance ta0 ta1 <? fst st) eqn:L.
      * assert (St : nearest_step rayorig raydir st a
                     = (used_distance ta0 ta1, Some a))
          by (unfold nearest_step; now rewrite X, L).
        rewrite St.
        destruct (IH (used_distance ta0 ta1, Some a))
          as [[E A] | (pre & s & post & t0 & t1 & -> & Xs & E & Lt & B & A)].
        -- right. exists [], a, l, ta0, ta1.
           split; [reflexivity|]. split; [exact X|]. split; [exact E|].
           split; [exact L|]. split; [intros s' t0' t1' []|].
           intros s' t0' t1' I Xs'. exact (A _ _ _ I Xs').
        -- right. exists (a :: pre), s, post, t0, t1. simpl in Lt.
           split; [reflexivity|]. split; [exact Xs|]. split; [exact E|].
           split; [exact (flt_trans _ _ _ Lt L)|]. split; [|exact A].
           intros s' t0' t1' [<- | I] Xs'.
           ++ rewrite X in Xs'. injection Xs' as <- <-. exact Lt.
           ++ exact (B _ _ _ I Xs').
      * assert (St : nearest_step rayorig raydir st a = st)
          by (unfold nearest_step; now rewrite X, L).
        rewrite St.
        destruct (IH st)
          as [[E A] | (pre & s & post & t0 & t1 & -> & Xs & E & Lt & B & A)].
        -- left. split; [exact E|].
           intros s' t0' t1' [<- | I] Xs'.
           ++ rewrite X in Xs'. injection Xs' as <- <-. exact L.
           ++ exact (A _ _ _ I Xs').
        -- right. exists (a :: pre), s, post, t0, t1.
           split; [reflexivity|]. split; [exact Xs|]. split; [exact E|].
           split; [exact Lt|]. split; [|exact A].
           intros s' t0' t1' [<- | I] Xs'.
           ++ rewrite X in Xs'. injection Xs' as <- <-.
              eapply flt_fle_trans; [exact Lt | exact L].
           ++ exact (B _ _ _ I Xs').
    + assert (St : nearest_step rayorig raydir st a = st)
        by (unfold nearest_step; now rewrite X).
      rewrite St.
      destruct (IH st)
        as [[E A] | (pre & s & post & t0 & t1 & -> & Xs & E & Lt & B & A)].
      * left. split; [exact E|].
        intros s' t0' t1' [<- | I] Xs'; [congruence|].
        exact (A _ _ _ I Xs').
      * right. exists (a :: pre), s, post, t0, t1.
        split; [reflexivity|]. split; [exact Xs|]. split; [exact E|].
        split; [exact Lt|]. split; [|exact A].
        intros s' t0' t1' [<- | I] Xs'; [congruence|].
        exact (B _ _ _ I Xs').
Qed.

(** X5.  The sphere the search selects is a nearest one: its distance
    beats [INFINITY], and no sphere of the scene that the ray hits has a
    smaller distance. *)
Theorem nearest_hit_minimal rayorig raydir (spheres : list (Sphere T))
    tnear s :
  nearest_hit rayorig raydir spheres = (tnear, Some s) ->
  (tnear <? INFINITY) = true /\
  forall s' t0 t1, In s' spheres ->
    intersect s' rayorig raydir = Some (t0, t1) ->
    tnear <= used_distance t0 t1.
Proof.
  intro E. unfold nearest_hit in E.
  destruct (nearest_fold_selects rayorig raydir spheres (INFINITY, None))
    as [[E' _] | (pre & s0 & post & t0 & t1 & -> & Xs & E' & Lt & B & A)];
    rewrite E' in E; [discriminate|].
  injection E as <- <-. split; [exact Lt|].
  intros s' t0' t1' I Xs'. apply in_app_or in I.
  destruct I as [I | [<- | I]].
  - apply flt_fle. exact (B _ _ _ I Xs').
  - rewrite Xs in Xs'. injection Xs' as <- <-. apply flt_irrefl.
  - exact (A _ _ _ I Xs').
Qed.

End NearestHitMinimal.

(** ** Ties in the nearest-hit search *)

(** The comparison of floats is irreflexive and transitive, NaN
    included. *)
Lemma SFltb_irrefl (a : SpecFloat.spec_float) : SpecFloat.SFltb a a = false.
Proof.
  unfold SpecFloat.SFltb, SpecFloat.SFcompare.
  destruct a as [s|s| |s m e]; try destruct s; try reflexivity;
    rewrite Z.compare_refl;
    change (Pos.compare_cont Eq m m) with (Pos.compare m m);
    now rewrite Pos.compare_refl.
Qed.

Lemma SFltb_trans (a b c : SpecFloat.spec_float) :
  SpecFloat.SFltb a b = true -> SpecFloat.SFltb b c = true ->
  SpecFloat.SFltb a c = true.
Proof.
  unfold SpecFloat.SFltb, SpecFloat.SFcompare.
  destruct a as [sa|sa| |sa ma ea], b as [sb|sb| |sb mb eb],
    c as [sc|sc| |sc mc ec];
    try destruct sa; try destruct sb; try destruct sc;
    try discriminate; try reflexivity;
    change (Pos.compare_cont Eq) with Pos.compare;
    destruct (Z.compare_spec ea eb); try discriminate;
    destruct (Z.compare_spec eb ec); try discriminate;
    destruct (Z.compare_spec ea ec); try reflexivity; try lia;
    destruct (Pos.compare_spec ma mb); try discriminate;
    destruct (Pos.compare_spec mb mc); try discriminate;
    destruct (Pos.compare_spec ma mc); try reflexivity; simpl; try lia;
    try discriminate.
Qed.

Section NearestHitTies.
Context {T : Type} `{Float T}.

Local Open Scope float_scope.

(** All that is asked of the comparison. *)
Hypothesis lt_irrefl : forall a : T, (a <? a) = false.
Hypothesis lt_trans : forall a b c : T,
    (a <? b) = true -> (b <? c) = true -> (a <? c) = true.

(** The search from a state [st] over [l] either leaves the state as it
    is, no sphere of [l] that is hit being below [fst st], or ends on a
    sphere of [l] that is below [fst st]; then no sphere hit before it
    has its distance or a smaller one, and no sphere hit after it has a
    smaller one. *)
Lemma nearest_fold_first rayorig raydir (l : list (Sphere T)) :
  forall st,
    (fold_left (nearest_step rayorig raydir) l st = st /\
     forall s' t0' t1', In s' l ->
       intersect s' rayorig raydir = Some (t0', t1') ->
       (used_distance t0' t1' <? fst st) = false) \/
    (exists pre s post t0 t1,
       l = pre ++ s :: post /\
       intersect s rayorig raydir = Some (t0, t1) /\
       fold_left (nearest_step rayorig raydir) l st
       = (used_distance t0 t1, Some s) /\
       (used_distance t0 t1 <? fst st) = true /\
       (forall s' t0' t1', In s' pre ->
          intersect s' rayorig raydir = Some (t0', t1') ->
          used_distance t0' t1' <> used_distance t0 t1 /\
          (used_distance t0' t1' <? used_distance t0 t1) = false) /\
       (forall s' t0' t1', In s' post ->
          intersect s' rayorig raydir = Some (t0', t1') ->
          (used_distance t0' t1' <? used_distance t0 t1) = false)).
Proof.
  induction l as [|a l IH]; intro st.
  - left. split; [reflexivity | intros s' t0' t1' []].
  - simpl.
    destruct (intersect a rayorig raydir) as [[ta0 ta1]|] eqn:X.
    + destruct (used_distance ta0 ta1 <? fst st) eqn:L.
      * assert (St : nearest_step rayorig raydir st a
                     = (used_distance ta0 ta1, Some a))
          by (unfold nearest_step; now rewrite X, L).
        rewrite St.
        destruct (IH (used_distance ta0 ta1, Some a))
          as [[E A] | (pre & s & post & t0 & t1 & -> & Xs & E & Lt & B & A)].
        -- right. exists [], a, l, ta0, ta1.
           split; [reflexivity|]. split; [exact X|]. split; [exact E|].
           split; [exact L|]. split; [intros s' t0' t1' []|].
           intros s' t0' t1' I Xs'. exact (A _ _ _ I Xs').
        -- right. exists (a :: pre), s, post, t0, t1. simpl in Lt.
           split; [reflexivity|]. split; [exact Xs|]. split; [exact E|].
           split; [exact (lt_trans _ _ _ Lt L)|]. split; [|exact A].
           intros s' t0' t1' [<- | I] Xs'; [|exact (B _ _ _ I Xs')].
           rewrite X in Xs'. injection Xs' as <- <-. split.
           ++ intro Q. rewrite Q, lt_irrefl in Lt. discriminate.
           ++ destruct (used_distance ta0 ta1 <? used_distance t0 t1)
                eqn:G; [exfalso|reflexivity].
              pose proof (lt_trans _ _ _ G Lt) as C.
              rewrite lt_irrefl in C. discriminate.
      * assert (St : nearest_step rayorig raydir st a = st)
          by (unfold nearest_step; now rewrite X, L).
        rewrite St.
        destruct (IH st)
          as [[E A] | (pre & s & post & t0 & t1 & -> & Xs & E & Lt & B & A)].
        -- left. split; [exact E|].
           intros s' t0' t1' [<- | I] Xs'; [|exact (A _ _ _ I Xs')].
           rewrite X in Xs'. injection Xs' as <- <-. exact L.
        -- right. exists (a :: pre), s, post, t0, t1.
           split; [reflexivity|]. split; [exact Xs|]. split; [exact E|].
           split; [exact Lt|]. split; [|exact A].
           intros s' t0' t1' [<- | I] Xs'; [|exact (B _ _ _ I Xs')].
           rewrite X in Xs'. injection Xs' as <- <-. split.
           ++ intro Q. rewrite Q, Lt in L. discriminate.
           ++ destruct (used_distance ta0 ta1 <? used_distance t0 t1)
                eqn:G; [exfalso|reflexivity].
              pose proof (lt_trans _ _ _ G Lt) as C.
              rewrite L in C. discriminate.
    + assert (St : nearest_step rayorig raydir st a = st)
        by (unfold nearest_step; now rewrite X).
      rewrite St.
      destruct (IH st)
        as [[E A] | (pre & s & post & t0 & t1 & -> & Xs & E & Lt & B & A)].
      * left. split; [exact E|].
        intros s' t0' t1' [<- | I] Xs'; [congruence|].
        exact (A _ _ _ I Xs').
      * right. exists (a :: pre), s, post, t0, t1.
        split; [reflexivity|]. split; [exact Xs|]. split; [exact E|].
        split; [exact Lt|]. split; [|exact A].
        intros s' t0' t1' [<- | I] Xs'; [congruence|].
        exact (B _ _ _ I Xs').
Qed.

(** X6.  A tie goes to the first sphere in scene order, the comparison
    [t0 < tnear] being strict: no sphere that is hit and stands before
    the selected one in the scene has the distance of the selected one,
    or a smaller one; a sphere after it can have the same distance, and
    none has a smaller one.  The comparison need only be irreflexive and
    transitive, as that of [float] is, also on NaN. *)
Theorem nearest_hit_first_wins rayorig raydir (spheres : list (Sphere T))
    tnear s :
  nearest_hit rayorig raydir spheres = (tnear, Some s) ->
  exists pre post,
    spheres = pre ++ s :: post /\
    (forall s' t0 t1, In s' pre ->
       intersect s' rayorig raydir = Some (t0, t1) ->
       used_distance t0 t1 <> tnear /\
       (used_distance t0 t1 <? tnear) = false) /\
    (forall s' t0 t1, In s' post ->
       intersect s' rayorig raydir = Some (t0, t1) ->
       (used_distance t0 t1 <? tnear) = false).
Proof.
  intro E. unfold nearest_hit in E.
  destruct (nearest_fold_first rayorig raydir spheres (INFINITY, None))
    as [[E' _] | (pre & s0 & post & t0 & t1 & -> & Xs & E' & Lt & B & A)];
    rewrite E' in E; [discriminate|].
  injection E as <- <-. exists pre, post. auto.
Qed.
End NearestHitTies.

(** ** The normal at the hit point *)

Section DirectionFacts.
Context {T : Type} `{FloatLaws T} `{CMath T}.

Local Open Scope float_scope.

Add Ring float_ring_direction : f_ring.

Lemma dot_vneg_r (v w : Vec3 T) : dot v (- w) = - dot v w.
Proof. destruct v, w. unfold dot, vneg. simpl. ring. Qed.

(** X7.  The normal [trace] shades with never points along the ray: after
    the flip [raydir . nhit] is not positive, so the facing ratio
    [- raydir . nhit] is not negative; and [inside] is set exactly when
    the normal was flipped. *)
Theorem hit_normal_faces_ray (sphere : Sphere T) (raydir phit : Vec3 T) :
  let n0 := normalize (phit - center sphere) in
  let nhit := fst (hit_normal sphere raydir phit) in
  let inside := snd (hit_normal sphere raydir phit) in
  dot raydir nhit <= of_int 0 /\
  of_int 0 <= - dot raydir nhit /\
  (inside = true -> nhit = (- n0)%V) /\
  (inside = false -> nhit = n0).
Proof.
  cbv zeta. unfold hit_normal.
  destruct (dot raydir (normalize (phit - center sphere)) >? of_int 0) eqn:E;
    simpl.
  - rewrite dot_vneg_r. pose proof (flt_pos_neg _ E) as N.
    repeat split; try discriminate.
    + now apply flt_fle.
    + apply flt_fle. apply flt_neg_pos in N.
      replace (- - dot raydir (normalize (phit - center sphere)))
        with (dot raydir (normalize (phit - center sphere))) by ring.
      exact E.
  - repeat split; try discriminate.
    + exact E.
    + unfold fle. destruct (- dot raydir (normalize (phit - center sphere))
                            <? of_int 0) eqn:L; [exfalso|reflexivity].
      apply flt_neg_pos in L.
      replace (- - dot raydir (normalize (phit - center sphere)))
        with (dot raydir (normalize (phit - center sphere))) in L by ring.
      congruence.
Qed.

End DirectionFacts.

(** ** More on trace *)

Section TraceMore.
Context {T : Type} `{Float T} `{CMath T}.

Local Open Scope float_scope.

(** The secondary rays of the recursive branch and the colour it makes of
    their colours. *)
Lemma trace_body_recursive limit self rayorig raydir
    (spheres : list (Sphere T)) depth tnear sphere :
  nearest_hit rayorig raydir spheres = (tnear, Some sphere) ->
  ((transparency sphere >? of_int 0) || (reflection sphere >? of_int 0))
  && (depth <? limit)%Z = true ->
  let phit := hit_point rayorig raydir tnear in
  let nhit := fst (hit_normal sphere raydir phit) in
  let inside := snd (hit_normal sphere raydir phit) in
  trace_body limit self rayorig raydir spheres depth =
  match self (phit + nhit *. bias)%V (normalize (reflect_dir raydir nhit))
          spheres (depth + 1)%Z with
  | None => None
  | Some reflection_ =>
      match
        (if negb (feqb (transparency sphere) (of_int 0))
         then self (phit - nhit *. bias)%V
                (normalize (refract_dir (refract_eta inside) raydir nhit))
                spheres (depth + 1)%Z
         else Some (Vec3_splat (of_int 0)))
      with
      | None => None
      | Some refraction_ =>
          Some ((reflection_ *. fresnel raydir nhit
                 + refraction_ *. (of_int 1 - fresnel raydir nhit)
                     *. transparency sphere)
                * getColor sphere phit + emissionColor sphere)%V
      end
  end.
Proof.
  intros N G phit nhit inside. unfold trace_body. rewrite N. fold phit.
  subst nhit inside.
  destruct (hit_normal sphere raydir phit) as [nhit inside]. simpl fst.
  simpl snd. rewrite G.
  destruct (self _ _ _ _) as [rc|]; [|reflexivity].
  destruct (negb _); [|reflexivity].
  destruct (self _ _ _ _) as [rf|]; reflexivity.
Qed.

Lemma trace_body_local limit self rayorig raydir
    (spheres : list (Sphere T)) depth tnear sphere :
  nearest_hit rayorig raydir spheres = (tnear, Some sphere) ->
  ((transparency sphere >? of_int 0) || (reflection sphere >? of_int 0))
  && (depth <? limit)%Z = false ->
  let phit := hit_point rayorig raydir tnear in
  let nhit := fst (hit_normal sphere raydir phit) in
  trace_body limit self rayorig raydir spheres depth =
  Some (direct_illumination sphere phit nhit spheres
        + emissionColor sphere)%V.
Proof.
  intros N G phit nhit. unfold trace_body. rewrite N. fold phit. subst nhit.
  destruct (hit_normal sphere raydir phit) as [nhit inside]. simpl fst.
  now rewrite G.
Qed.

(** X12.  At the depth limit and beyond, every sphere is shaded by direct
    illumination alone, a mirror or a glass ball like an opaque one: no
    secondary ray is cast, and the colour is the same at every depth
    from 5 on. *)
Theorem trace_at_depth_limit rayorig raydir (spheres : list (Sphere T))
    (depth : Z) :
  (MAX_RAY_DEPTH <= depth)%Z ->
  (forall depth', (MAX_RAY_DEPTH <= depth')%Z ->
     trace rayorig raydir spheres depth'
     = trace rayorig raydir spheres depth) /\
  (forall tnear sphere,
     nearest_hit rayorig raydir spheres = (tnear, Some sphere) ->
     let phit := hit_point rayorig raydir tnear in
     let nhit := fst (hit_normal sphere raydir phit) in
     trace rayorig raydir spheres depth
     = Some (direct_illumination sphere phit nhit spheres
             + emissionColor sphere)%V).
Proof.
  intro L.
  assert (G : forall d s, (MAX_RAY_DEPTH <= d)%Z ->
            ((transparency s >? of_int 0) || (reflection s >? of_int 0))
            && (d <? MAX_RAY_DEPTH)%Z = false).
  { intros d s Ld. replace (d <? MAX_RAY_DEPTH)%Z with false
      by (symmetry; apply Z.ltb_ge; exact Ld).
    apply andb_false_r. }
  assert (B : forall d self self', (MAX_RAY_DEPTH <= d)%Z ->
            trace_body MAX_RAY_DEPTH self rayorig raydir spheres d
            = trace_body MAX_RAY_DEPTH self' rayorig raydir spheres depth).
  { intros d self self' Ld.
    destruct (nearest_hit rayorig raydir spheres) as [t [s|]] eqn:N.
    - pose proof (@trace_body_local MAX_RAY_DEPTH self rayorig raydir
                    spheres d t s N (G d s Ld)) as E1.
      pose proof (@trace_body_local MAX_RAY_DEPTH self' rayorig raydir
                    spheres depth t s N (G depth s L)) as E2.
      cbv zeta in E1, E2. now rewrite E1, E2.
    - unfold trace_body. now rewrite N. }
  split.
  - intros depth' L'. unfold trace, trace_levels. simpl. now apply B.
  - intros tnear sphere N phit nhit. unfold trace, trace_levels. simpl.
    exact (@trace_body_local MAX_RAY_DEPTH _ rayorig raydir
             spheres depth tnear sphere N (G depth sphere L)).
Qed.
End TraceMore.

Section TraceEquation.
Context {T : Type} `{Float T} `{CMath T}.

Local Open Scope float_scope.

Lemma trace_equation rayorig raydir (spheres : list (Sphere T)) (depth : Z) :
  trace rayorig raydir spheres depth
  = trace_body MAX_RAY_DEPTH trace rayorig raydir spheres depth.
Proof.
  unfold trace at 1. unfold trace_levels. cbn [trace_fuel].
  apply trace_body_guard. intros G o d. unfold trace.
  apply trace_fuel_stable; unfold trace_levels, MAX_RAY_DEPTH in G |- *; lia.
Qed.
End TraceEquation.

Section TraceMaterials.
Context {T : Type} `{FieldLaws T} `{CMath T}.

Local Open Scope float_scope.

Add Ring float_ring_materials : f_ring.

Lemma feqb_refl (a : T) : feqb a a = true.
Proof. now apply feqb_eq. Qed.

(** X13.  A sphere that reflects and has transparency 0 casts the
    reflection ray only: below the depth limit its colour is the colour
    of the reflected ray scaled by the Fresnel factor and multiplied by
    the colour of the surface, plus its emission; the refraction adds
    nothing. *)
Theorem mirror_shading rayorig raydir (spheres : list (Sphere T)) depth
    tnear sphere :
  nearest_hit rayorig raydir spheres = (tnear, Some sphere) ->
  transparency sphere = of_int 0 ->
  (reflection sphere >? of_int 0) = true ->
  (depth < MAX_RAY_DEPTH)%Z ->
  let phit := hit_point rayorig raydir tnear in
  let nhit := fst (hit_normal sphere raydir phit) in
  trace rayorig raydir spheres depth =
  option_map
    (fun reflection_ =>
       (reflection_ *. fresnel raydir nhit * getColor sphere phit
        + emissionColor sphere)%V)
    (trace (phit + nhit *. bias)%V (normalize (reflect_dir raydir nhit))
       spheres (depth + 1)%Z).
Proof.
  intros N Tr Rf L phit nhit. rewrite trace_equation.
  assert (G : ((transparency sphere >? of_int 0)
               || (reflection sphere >? of_int 0))
              && (depth <? MAX_RAY_DEPTH)%Z = true).
  { rewrite Rf, orb_true_r. simpl. now apply Z.ltb_lt. }
  pose proof (@trace_body_recursive _ _ _ MAX_RAY_DEPTH trace rayorig raydir
                spheres depth tnear sphere N G) as E.
  cbv zeta in E. rewrite E. fold phit. fold nhit.
  destruct (trace (phit + nhit *. bias)%V _ spheres (depth + 1)%Z)
    as [rc|]; [|reflexivity].
  rewrite Tr, feqb_refl. simpl. do 2 f_equal.
  destruct rc, (getColor sphere phit). unfold vadd, vmul, vscale, Vec3_splat.
  simpl. f_equal; ring.
Qed.
End TraceMaterials.

(** ** A texture without columns *)

Section TextureEdge.
Context {T : Type} `{Float T} `{CMath T}.

(** X15.  The bound on the width is needed: for a sphere whose texture
    has rows and whose [textureWidth] is 0 or less, the column index that
    [getColor] computes is [textureWidth - 1], a negative number, for
    every point, and the lookup is outside the texture. *)
Theorem texture_index_without_columns (s : Sphere T) (phit : Vec3 T) :
  (textureWidth s <= 0)%Z ->
  fst (texture_index s phit) = (textureWidth s - 1)%Z /\
  (fst (texture_index s phit) < 0)%Z /\
  texel (texture s) (fst (texture_index s phit))
    (snd (texture_index s phit)) = None.
Proof.
  intro W.
  assert (E : fst (texture_index s phit) = (textureWidth s - 1)%Z).
  { unfold texture_index. simpl. unfold std_min_int, std_max_int.
    destruct (0 <? _)%Z eqn:A.
    - apply Z.ltb_lt in A.
      destruct (_ <? textureWidth s - 1)%Z eqn:B; [|reflexivity].
      apply Z.ltb_lt in B. lia.
    - destruct (0 <? textureWidth s - 1)%Z eqn:B; [|reflexivity].
      apply Z.ltb_lt in B. lia. }
  split; [exact E|]. split; [lia|].
  unfold texel. rewrite E.
  replace (textureWidth s - 1 <? 0)%Z with true
    by (symmetry; apply Z.ltb_lt; lia).
  now rewrite orb_true_r.
Qed.
End TextureEdge.

(** ** Decimal numbers in a stream *)

Section DecimalFacts.

Lemma span_digits_app (ds r : list Z) :
  Forall (fun c => is_digit c = true) ds ->
  forall acc n,
    span_digits acc n (ds ++ r)
    = span_digits (digits_value acc ds) (n + List.length ds) r.
Proof.
  induction 1 as [|c ds C _ IH]; intros acc n; simpl.
  - now rewrite Nat.add_0_r.
  - rewrite C, IH. f_equal. lia.
Qed.

Lemma span_digits_stop acc n (r : list Z) :
  match r with [] => True | c :: _ => is_digit c = false end ->
  span_digits acc n r = (acc, n, r).
Proof. destruct r as [|c r]; simpl; [reflexivity | now intros ->]. Qed.

Lemma decimal_fuel_digits fuel :
  forall v, (0 <= v)%Z ->
    Forall (fun c => is_digit c = true) (decimal_fuel fuel v).
Proof.
  induction fuel as [|fuel IH]; intros v P; cbn [decimal_fuel];
    [constructor|].
  destruct (v <? 10)%Z eqn:L.
  - apply Z.ltb_lt in L. constructor; [|constructor].
    unfold is_digit. apply andb_true_intro. split; apply Z.leb_le; lia.
  - apply Forall_app. split.
    + apply IH. apply Z.div_pos; lia.
    + constructor; [|constructor]. unfold is_digit.
      pose proof (Z.mod_pos_bound v 10 ltac:(lia)).
      apply andb_true_intro. split; apply Z.leb_le; lia.
Qed.

Lemma digits_value_app acc (a b : list Z) :
  digits_value acc (a ++ b) = digits_value (digits_value acc a) b.
Proof. unfold digits_value. apply fold_left_app. Qed.

Lemma decimal_fuel_value fuel :
  forall v, (0 <= v < 10 ^ Z.of_nat (S fuel))%Z ->
    digits_value 0 (decimal_fuel (S fuel) v) = v /\
    decimal_fuel (S fuel) v <> [].
Proof.
  induction fuel as [|fuel IH]; intros v P.
  - change (10 ^ Z.of_nat 1)%Z with 10%Z in P. cbn [decimal_fuel].
    replace (v <? 10)%Z with true by (symmetry; apply Z.ltb_lt; lia).
    split; [|discriminate]. unfold digits_value. cbn [fold_left]. lia.
  - remember (S fuel) as k eqn:K. cbn [decimal_fuel].
    destruct (v <? 10)%Z eqn:L.
    + split; [|discriminate]. unfold digits_value. cbn [fold_left]. lia.
    + apply Z.ltb_ge in L.
      assert (B : (0 <= v / 10 < 10 ^ Z.of_nat k)%Z).
      { split; [apply Z.div_pos; lia|].
        apply Z.div_lt_upper_bound; [lia|].
        rewrite Nat2Z.inj_succ, Z.pow_succ_r in P by lia. lia. }
      subst k. destruct (IH _ B) as [E _]. split.
      * rewrite digits_value_app, E. unfold digits_value. cbn [fold_left].
        pose proof (Z.div_mod v 10 ltac:(lia)). lia.
      * intro N. apply app_eq_nil in N. destruct N as [_ N]. discriminate.
Qed.

Lemma decimal_value (v : Z) :
  (0 <= v)%Z ->
  digits_value 0 (decimal v) = v /\ decimal v <> [] /\
  Forall (fun c => is_digit c = true) (decimal v).
Proof.
  intro P. unfold decimal.
  assert (B : (0 <= v < 10 ^ Z.of_nat (S (Z.to_nat (Z.log2 v))))%Z).
  { split; [exact P|].
    rewrite Nat2Z.inj_succ, Z2Nat.id by apply Z.log2_nonneg.
    destruct (Z.eq_dec v 0) as [-> | N]; [simpl; lia|].
    pose proof (Z.log2_spec v ltac:(lia)) as [_ U].
    eapply Z.lt_le_trans; [exact U|].
    apply Z.pow_le_mono_l. lia. }
  destruct (decimal_fuel_value _ B) as [E N].
  split; [exact E|]. split; [exact N|]. now apply decimal_fuel_digits.
Qed.

(** The digits [ofs << n] writes are read back as [n] by [file >> n],
    which stops at the first character that is no digit. *)
Lemma extract_int_decimal (v : Z) (r : list Z) :
  (0 <= v <= INT_MAX)%Z ->
  match r with [] => True | c :: _ => is_digit c = false end ->
  extract_int (mkIstream (decimal v ++ r) true)
  = (Some v, mkIstream r true).
Proof.
  intros [P U] R. destruct (decimal_value P) as (E & N & D).
  unfold extract_int. simpl ok. simpl pending.
  destruct (decimal v) as [|c ds] eqn:Dv; [congruence|].
  assert (Dc : is_digit c = true) by now inversion D.
  assert (Sp : is_space c = false).
  { unfold is_digit, is_space in * .
    apply andb_prop in Dc. destruct Dc as [A B].
    apply Z.leb_le in A. apply Z.leb_le in B.
    apply orb_false_intro; [apply Z.eqb_neq; lia|].
    apply andb_false_intro2. apply Z.leb_gt. lia. }
  simpl. rewrite Sp.
  assert (Sg : (c =? 45)%Z || (c =? 43)%Z = false).
  { unfold is_digit in Dc. apply andb_prop in Dc. destruct Dc as [A B].
    apply Z.leb_le in A.
    apply orb_false_intro; apply Z.eqb_neq; lia. }
  rewrite Sg.
  change (c :: ds ++ r) with ((c :: ds) ++ r).
  rewrite span_digits_app by exact D.
  rewrite span_digits_stop by exact R. rewrite E. simpl.
  apply orb_false_elim in Sg. destruct Sg as [-> _].
  replace (v <? INT_MIN)%Z with false
    by (symmetry; apply Z.ltb_ge; unfold INT_MIN; lia).
  replace (INT_MAX <? v)%Z with false by (symmetry; apply Z.ltb_ge; lia).
  reflexivity.
Qed.
End DecimalFacts.

(** ** The pixels of a texture file *)

Section PixelFacts.
Context {T : Type} `{Float T}.

Lemma texels_of_length (l : list Z) (n : nat) :
  (3 * n <= List.length l)%nat ->
  (n <= List.length (texels_of (T := T) l))%nat.
Proof.
  revert l. induction n as [|n IH]; intros l L; [lia|].
  destruct l as [|r [|g [|b l]]]; simpl in L; try lia.
  simpl. apply le_n_S. apply IH. lia.
Qed.

Lemma texels_of_skipn (n : nat) :
  forall l : list Z,
    (3 * n <= List.length l)%nat ->
    texels_of (T := T) (skipn (3 * n) l) = skipn n (texels_of l).
Proof.
  induction n as [|n IH]; intros l L; [reflexivity|].
  destruct l as [|r [|g [|b l]]]; simpl in L; try lia.
  replace (3 * S n)%nat with (S (S (S (3 * n)))) by lia.
  cbn [skipn texels_of]. apply IH. lia.
Qed.

Lemma read_row_enough (width : nat) :
  forall body : list Z,
    (3 * width <= List.length body)%nat ->
    read_row (T := T) width (mkIstream body true)
    = (Some (firstn width (texels_of body)),
       mkIstream (skipn (3 * width) body) true).
Proof.
  induction width as [|width IH]; intros body L; [reflexivity|].
  destruct body as [|r [|g [|b l]]]; simpl in L; try lia.
  replace (3 * S width)%nat with (S (S (S (3 * width)))) by lia.
  cbn [read_row skipn texels_of firstn].
  change (read_texel (mkIstream (r :: g :: b :: l) true))
    with (Some (texel_of_bytes (T := T) r g b), mkIstream l true).
  cbv beta iota. rewrite IH by lia. reflexivity.
Qed.

Lemma read_rows_enough (height width : nat) :
  forall body : list Z,
    (3 * width * height <= List.length body)%nat ->
    read_rows (T := T) height width (mkIstream body true)
    = Some (rows_of height width (texels_of body)).
Proof.
  induction height as [|height IH]; intros body L; [reflexivity|].
  cbn [read_rows rows_of]. rewrite read_row_enough by nia.
  rewrite IH by (rewrite length_skipn; nia).
  rewrite texels_of_skipn by nia. reflexivity.
Qed.

Lemma read_texel_failed (st : istream) :
  ok st = false -> read_texel (T := T) st = (None, st).
Proof. destruct st as [l o]. simpl. intros ->. reflexivity. Qed.

Lemma read_row_failed (width : nat) :
  forall st, ok st = false -> width <> O ->
  fst (read_row (T := T) width st) = None.
Proof.
  destruct width as [|width]; intros st F N; [congruence|].
  cbn [read_row]. rewrite read_texel_failed by exact F.
  cbv beta iota. destruct (read_row width st) as [row st2]. reflexivity.
Qed.

Lemma read_row_short (width : nat) :
  forall body : list Z,
    (List.length body < 3 * width)%nat ->
    fst (read_row (T := T) width (mkIstream body true)) = None.
Proof.
  induction width as [|width IH]; intros body L; [lia|].
  cbn [read_row].
  destruct body as [|r [|g [|b l]]].
  - change (read_texel (mkIstream [] true))
      with (@None (Vec3 T), mkIstream [] false).
    cbv beta iota. destruct (read_row width (mkIstream [] false)).
    reflexivity.
  - change (read_texel (mkIstream [r] true))
      with (@None (Vec3 T), mkIstream [] false).
    cbv beta iota. destruct (read_row width (mkIstream [] false)).
    reflexivity.
  - change (read_texel (mkIstream [r; g] true))
      with (@None (Vec3 T), mkIstream [] false).
    cbv beta iota. destruct (read_row width (mkIstream [] false)).
    reflexivity.
  - change (read_texel (mkIstream (r :: g :: b :: l) true))
      with (Some (texel_of_bytes (T := T) r g b), mkIstream l true).
    cbv beta iota. simpl in L. specialize (IH l ltac:(lia)).
    destruct (read_row width (mkIstream l true)) as [row st2].
    simpl in IH. subst row. reflexivity.
Qed.

(** The outer loop returns a texture exactly when it has no pixel to read
    or the stream is good and holds three bytes for every pixel; the
    texture is then the rows of the texels of these bytes. *)
Lemma read_rows_spec (height width : nat) :
  forall st,
    read_rows (T := T) height width st =
    if (height * width =? 0)%nat
       || (ok st && (3 * width * height <=? List.length (pending st))%nat)
    then Some (rows_of height width (texels_of (pending st)))
    else None.
Proof.
  induction height as [|height IH]; intro st; [reflexivity|].
  destruct width as [|width].
  - cbn [read_rows read_row]. rewrite IH.
    rewrite !Nat.mul_0_r. simpl. reflexivity.
  - destruct st as [body [|]].
    + cbn [ok pending].
      replace (S height * S width =? 0)%nat with false
        by (symmetry; apply Nat.eqb_neq; lia). cbn [orb andb].
      destruct (3 * S width * S height <=? List.length body)%nat eqn:L.
      * apply Nat.leb_le in L. now apply read_rows_enough.
      * apply Nat.leb_gt in L. cbn [read_rows].
        destruct (Nat.le_gt_cases (3 * S width) (List.length body)) as [E | E].
        -- rewrite read_row_enough by exact E. rewrite IH.
           cbn [ok pending].
           destruct height as [|height]; [exfalso; lia|].
           replace (S height * S width =? 0)%nat with false
             by (symmetry; apply Nat.eqb_neq; lia).
           replace (3 * S width * S height
                    <=? List.length (skipn (3 * S width) body))%nat
             with false
             by (symmetry; apply Nat.leb_gt; rewrite length_skipn; nia).
           reflexivity.
        -- pose proof (read_row_short (S width) body E) as F.
           destruct (read_row (S width) (mkIstream body true)) as [row st1].
           simpl in F. now subst row.
    + cbn [ok andb orb].
      replace (S height * S width =? 0)%nat with false
        by (symmetry; apply Nat.eqb_neq; lia).
      cbn [read_rows orb].
      pose proof (@read_row_failed (S width) (mkIstream body false)
                    eq_refl ltac:(discriminate)) as F.
      destruct (read_row (S width) (mkIstream body false)) as [row st1].
      simpl in F. now subst row.
Qed.

Lemma rows_of_length {A : Type} (height width : nat) (l : list A) :
  List.length (rows_of height width l) = height.
Proof.
  revert l. induction height as [|height IH]; intro l; simpl; [reflexivity|].
  now rewrite IH.
Qed.

Lemma rows_of_nth {A : Type} (height width : nat) :
  forall (l : list A) (yp : nat),
    (yp < height)%nat ->
    nth_error (rows_of height width l) yp
    = Some (firstn width (skipn (yp * width) l)).
Proof.
  induction height as [|height IH]; intros l yp L; [lia|].
  destruct yp as [|yp]; [reflexivity|].
  cbn [rows_of nth_error]. rewrite IH by lia.
  rewrite skipn_skipn. do 3 f_equal. lia.
Qed.

Lemma rows_of_widths {A : Type} (height width : nat) (l : list A) row :
  (height * width <= List.length l)%nat ->
  In row (rows_of height width l) -> List.length row = width.
Proof.
  intros L I. apply In_nth_error in I. destruct I as [yp E].
  assert (Y : (yp < height)%nat).
  { rewrite <- (rows_of_length height width l). apply nth_error_Some.
    rewrite E. discriminate. }
  rewrite rows_of_nth in E by exact Y. injection E as <-.
  rewrite length_firstn, length_skipn. nia.
Qed.
End PixelFacts.

(** ** The texture loader on a file *)

Section LoaderFacts.
Context {T : Type} `{Float T}.

Lemma read_rows_dims (height width : nat) st
    (tex : list (list (Vec3 T))) :
  read_rows height width st = Some tex ->
  tex = rows_of height width (texels_of (pending st)) /\
  List.length tex = height /\
  (forall row, In row tex -> List.length row = width) /\
  (height * width = 0
   \/ ok st = true /\ 3 * width * height <= List.length (pending st))%nat.
Proof.
  rewrite read_rows_spec.
  destruct (height * width =? 0)%nat eqn:Z; cbn [orb].
  - intros [= <-]. apply Nat.eqb_eq in Z.
    split; [reflexivity|]. split; [apply rows_of_length|].
    split; [|now left]. intros row I.
    apply In_nth_error in I. destruct I as [yp E].
    assert (Y : (yp < height)%nat).
    { rewrite <- (rows_of_length height width
                    (texels_of (T := T) (pending st))).
      apply nth_error_Some. rewrite E. discriminate. }
    rewrite rows_of_nth in E by exact Y. injection E as <-.
    assert (W : width = O) by nia. subst width. reflexivity.
  - destruct (ok st) eqn:O; cbn [andb]; [|discriminate].
    destruct (3 * width * height <=? _)%nat eqn:L; [|discriminate].
    apply Nat.leb_le in L. intros [= <-].
    split; [reflexivity|]. split; [apply rows_of_length|].
    split; [|right; now split].
    intros row I. apply rows_of_widths in I; [exact I|].
    apply texels_of_length. lia.
Qed.

Lemma skipws_digits (v : Z) (r : list Z) :
  (0 <= v)%Z -> skipws (decimal v ++ r) = decimal v ++ r.
Proof.
  intro P. destruct (decimal_value P) as (_ & N & D).
  destruct (decimal v) as [|c ds]; [congruence|].
  assert (Dc : is_digit c = true) by now inversion D.
  simpl. replace (is_space c) with false; [reflexivity|].
  symmetry. unfold is_digit, is_space in * .
  apply andb_prop in Dc. destruct Dc as [A B].
  apply Z.leb_le in A. apply Z.leb_le in B.
  apply orb_false_intro; [apply Z.eqb_neq; lia|].
  apply andb_false_intro2. apply Z.leb_gt. lia.
Qed.

Lemma extract_int_after_space (c v : Z) (r : list Z) :
  is_space c = true ->
  (0 <= v <= INT_MAX)%Z ->
  match r with [] => True | d :: _ => is_digit d = false end ->
  extract_int (mkIstream (c :: decimal v ++ r) true)
  = (Some v, mkIstream r true).
Proof.
  intros S P R. rewrite <- (extract_int_decimal r P R).
  unfold extract_int. cbn [ok pending skipws]. rewrite S.
  rewrite skipws_digits by lia. reflexivity.
Qed.

(** A file that starts with the header the writer makes, for any maximum
    value: the loader reads the sizes and goes on to the pixels. *)
Lemma loadTexture_header (width height maxVal : Z) (body filename : list Z) :
  (0 <= width <= INT_MAX)%Z -> (0 <= height <= INT_MAX)%Z ->
  (0 <= maxVal <= INT_MAX)%Z ->
  loadTexture (T := T)
    (Some (ppm_header_max width height maxVal ++ body)) filename
  = match read_rows (Z.to_nat height) (Z.to_nat width)
            (mkIstream body true) with
    | Some texture => Returns (texture, width, height)
    | None => Undefined
    end.
Proof.
  intros W Hh M. unfold loadTexture, ppm_header_max.
  change (chars "P6") with [80%Z; 54%Z]. change (chars " ") with [32%Z].
  rewrite <- !app_assoc. cbn [app].
  change (extract_word (mkIstream (80 :: 54 :: 10 :: ?l)%Z true))
    with ([80%Z; 54%Z], mkIstream (10%Z :: l) true).
  cbv beta iota.
  change (negb (list_eqb [80%Z; 54%Z] [80%Z; 54%Z])) with false.
  cbv iota.
  rewrite extract_int_after_space by (reflexivity || lia || exact I).
  cbv beta iota.
  rewrite extract_int_after_space by (reflexivity || lia || exact I).
  cbv beta iota.
  rewrite extract_int_after_space by (reflexivity || lia || exact I).
  cbv beta iota.
  change (ignore_one (mkIstream (10%Z :: body) true))
    with (mkIstream body true).
  replace ((width <? 0)%Z || (height <? 0)%Z) with false; [reflexivity|].
  symmetry. apply orb_false_intro; apply Z.ltb_ge; lia.
Qed.

Lemma loadTexture_shape (file : option (list Z)) (filename : list Z)
    (tex : list (list (Vec3 T))) (width height : Z) :
  loadTexture file filename = Returns (tex, width, height) ->
  (0 <= width)%Z /\ (0 <= height)%Z /\
  List.length tex = Z.to_nat height /\
  forall row, In row tex -> List.length row = Z.to_nat width.
Proof.
  unfold loadTexture. destruct file as [bytes|]; [|discriminate].
  destruct (extract_word _) as [magic st1].
  destruct (negb _); [discriminate|].
  destruct (extract_int st1) as [[w|] st2];
    destruct (extract_int st2) as [[h|] st3];
    destruct (extract_int st3) as [m st4]; try discriminate.
  destruct ((w <? 0)%Z || (h <? 0)%Z) eqn:N; [discriminate|].
  apply orb_false_elim in N. destruct N as [Nw Nh].
  apply Z.ltb_ge in Nw. apply Z.ltb_ge in Nh.
  destruct (read_rows _ _ _) as [t|] eqn:R; [|discriminate].
  intros [= <- <- <-]. apply read_rows_dims in R.
  destruct R as (_ & L & Wd & _). auto.
Qed.

(** X16.  The maximum value of the header is read and not used: two
    files that differ in it only give the same texture, each byte being
    divided by 255 whatever the header says. *)
Theorem loadTexture_ignores_maxVal (width height m1 m2 : Z)
    (body filename : list Z) :
  (0 <= width <= INT_MAX)%Z -> (0 <= height <= INT_MAX)%Z ->
  (0 <= m1 <= INT_MAX)%Z -> (0 <= m2 <= INT_MAX)%Z ->
  loadTexture (T := T) (Some (ppm_header_max width height m1 ++ body))
    filename
  = loadTexture (Some (ppm_header_max width height m2 ++ body)) filename.
Proof.
  intros W Hh M1 M2. now rewrite !loadTexture_header by assumption.
Qed.

(** X17.  A file cut short is not reported: when the header announces at
    least one pixel and fewer than [3 * width * height] bytes follow it,
    [loadTexture] neither returns nor exits, it uses bytes it never
    read. *)
Theorem loadTexture_truncated (width height maxVal : Z)
    (body filename : list Z) :
  (0 < width <= INT_MAX)%Z -> (0 < height <= INT_MAX)%Z ->
  (0 <= maxVal <= INT_MAX)%Z ->
  (Z.of_nat (List.length body) < 3 * width * height)%Z ->
  loadTexture (T := T)
    (Some (ppm_header_max width height maxVal ++ body)) filename
  = Undefined.
Proof.
  intros W Hh M L. rewrite loadTexture_header by lia.
  rewrite read_rows_spec. cbn [ok pending].
  replace (Z.to_nat height * Z.to_nat width =? 0)%nat with false
    by (symmetry; apply Nat.eqb_neq; nia).
  replace (3 * Z.to_nat width * Z.to_nat height <=? List.length body)%nat
    with false by (symmetry; apply Nat.leb_gt; nia).
  reflexivity.
Qed.

(** X18.  A texture that [loadTexture] returns has the shape its sizes
    announce: [width] and [height] are not negative, there are [height]
    rows, and every row has [width] texels. *)
Theorem loadTexture_dimensions (file : option (list Z)) (filename : list Z)
    (tex : list (list (Vec3 T))) (width height : Z) :
  loadTexture file filename = Returns (tex, width, height) ->
  (0 <= width)%Z /\ (0 <= height)%Z /\
  List.length tex = Z.to_nat height /\
  forall row, In row tex -> List.length row = Z.to_nat width.
Proof. apply loadTexture_shape. Qed.
End LoaderFacts.

(** ** What the loader accepts and where the pixels are *)

Section StreamFacts.

Lemma skipws_split (l : list Z) :
  exists ws, l = ws ++ skipws l /\ Forall (fun c => is_space c = true) ws.
Proof.
  induction l as [|c l (ws & E & F)]; [now exists []|].
  simpl. destruct (is_space c) eqn:S.
  - exists (c :: ws). split; [now rewrite E at 1 | now constructor].
  - now exists [].
Qed.

Lemma span_word_split (l : list Z) :
  forall w r, span_word l = (w, r) ->
    l = w ++ r /\
    match r with [] => True | c :: _ => is_space c = true end.
Proof.
  induction l as [|c l IH]; intros w r E; simpl in E.
  - injection E as <- <-. now split.
  - destruct (is_space c) eqn:S.
    + injection E as <- <-. now split.
    + destruct (span_word l) as [w' r'] eqn:E'. injection E as <- <-.
      destruct (IH _ _ eq_refl) as [-> R]. now split.
Qed.

Lemma span_digits_suffix (l : list Z) :
  forall acc n v k r, span_digits acc n l = (v, k, r) ->
    exists pre, l = pre ++ r.
Proof.
  induction l as [|c l IH]; intros acc n v k r E; simpl in E.
  - injection E as <- <- <-. now exists [].
  - destruct (is_digit c).
    + destruct (IH _ _ _ _ _ E) as [pre ->]. now exists (c :: pre).
    + injection E as <- <- <-. now exists [].
Qed.

Lemma extract_int_suffix (st : istream) v st' :
  extract_int st = (v, st') -> exists pre, pending st = pre ++ pending st'.
Proof.
  unfold extract_int. destruct (ok st); [|intros [= <- <-]; now exists []].
  destruct (skipws_split (pending st)) as (ws & E & _).
  destruct (skipws (pending st)) as [|c l].
  - intros [= <- <-]. exists (pending st). now rewrite app_nil_r.
  - destruct (span_digits 0 0 _) as [[d n] r] eqn:S.
    apply span_digits_suffix in S. destruct S as [pre S].
    assert (X : exists pre', pending st = pre' ++ r).
    { rewrite E. destruct ((c =? 45)%Z || (c =? 43)%Z).
      - subst l. exists (ws ++ c :: pre). now rewrite <- app_assoc.
      - rewrite S. exists (ws ++ pre). now rewrite <- app_assoc. }
    destruct n as [|n]; [intros [= <- <-]; exact X|].
    destruct (_ <? INT_MIN)%Z; [intros [= <- <-]; exact X|].
    destruct (INT_MAX <? _)%Z; intros [= <- <-]; exact X.
Qed.

Lemma ignore_one_suffix (st : istream) :
  exists pre, pending st = pre ++ pending (ignore_one st).
Proof.
  unfold ignore_one. destruct (ok st); [|now exists []].
  simpl. destruct (pending st) as [|c l]; [now exists [] | now exists [c]].
Qed.
End StreamFacts.

Section LoaderContent.
Context {T : Type} `{Float T}.

Lemma texels_of_nth (k : nat) :
  forall l : list Z,
    (3 * k + 2 < List.length l)%nat ->
    exists r g b,
      nth_error l (3 * k) = Some r /\
      nth_error l (3 * k + 1) = Some g /\
      nth_error l (3 * k + 2) = Some b /\
      nth_error (texels_of (T := T) l) k = Some (texel_of_bytes r g b).
Proof.
  induction k as [|k IH]; intros l L.
  - destruct l as [|r [|g [|b l]]]; simpl in L; try lia.
    exists r, g, b. now repeat split.
  - destruct l as [|r [|g [|b l]]]; simpl in L; try lia.
    destruct (IH l ltac:(lia)) as (r' & g' & b' & A & B & C & D).
    exists r', g', b'.
    replace (3 * S k)%nat with (S (S (S (3 * k)))) by lia.
    now repeat split.
Qed.

Lemma texel_rows_of (height width : nat) (l : list (Vec3 T)) (xp yp : nat) :
  (xp < width)%nat -> (yp < height)%nat ->
  texel (rows_of height width l) (Z.of_nat xp) (Z.of_nat yp)
  = nth_error l (yp * width + xp).
Proof.
  intros X Y. unfold texel.
  replace (Z.of_nat yp <? 0)%Z with false by (symmetry; apply Z.ltb_ge; lia).
  replace (Z.of_nat xp <? 0)%Z with false by (symmetry; apply Z.ltb_ge; lia).
  cbn [orb]. rewrite !Nat2Z.id, rows_of_nth by exact Y.
  rewrite nth_error_firstn.
  replace (xp <? width)%nat with true by (symmetry; apply Nat.ltb_lt; lia).
  now rewrite nth_error_skipn.
Qed.

(** X19.  The pixels of a texture file follow the header row after row,
    three bytes each in the order red, green, blue: the texel in column
    [xp] of row [yp] of the texture that [loadTexture] returns is made of
    the three bytes at offset [3 * (yp * width + xp)] of what follows the
    header, each divided by 255. *)
Theorem loadTexture_texels (bytes filename : list Z)
    (tex : list (list (Vec3 T))) (width height : Z) :
  loadTexture (Some bytes) filename = Returns (tex, width, height) ->
  exists header payload,
    bytes = header ++ payload /\
    tex = rows_of (Z.to_nat height) (Z.to_nat width) (texels_of payload) /\
    forall xp yp : nat,
      (xp < Z.to_nat width)%nat -> (yp < Z.to_nat height)%nat ->
      exists r g b,
        nth_error payload (3 * (yp * Z.to_nat width + xp)) = Some r /\
        nth_error payload (3 * (yp * Z.to_nat width + xp) + 1) = Some g /\
        nth_error payload (3 * (yp * Z.to_nat width + xp) + 2) = Some b /\
        texel tex (Z.of_nat xp) (Z.of_nat yp) = Some (texel_of_bytes r g b).
Proof.
  unfold loadTexture.
  destruct (extract_word (mkIstream bytes true)) as [magic st1] eqn:E1.
  destruct (negb _); [discriminate|].
  destruct (extract_int st1) as [[w|] st2] eqn:E2;
    destruct (extract_int st2) as [[h|] st3] eqn:E3;
    destruct (extract_int st3) as [m st4] eqn:E4; try discriminate.
  destruct ((w <? 0)%Z || (h <? 0)%Z); [discriminate|].
  destruct (read_rows _ _ _) as [t|] eqn:R; [|discriminate].
  intros [= <- <- <-]. apply read_rows_dims in R.
  destruct R as (Et & _ & _ & Enough).
  assert (S1 : exists pre, bytes = pre ++ pending st1).
  { unfold extract_word in E1. cbn [ok pending] in E1.
    destruct (skipws_split bytes) as (ws & Eb & _).
    destruct (skipws bytes) as [|c l].
    - injection E1 as <- <-. exists bytes. now rewrite app_nil_r.
    - destruct (span_word (c :: l)) as [wd r] eqn:Sw.
      injection E1 as <- <-. apply span_word_split in Sw.
      destruct Sw as [Sw _]. exists (ws ++ wd).
      now rewrite Eb, Sw, <- app_assoc. }
  destruct S1 as [p1 S1].
  destruct (extract_int_suffix _ E2) as [p2 S2].
  destruct (extract_int_suffix _ E3) as [p3 S3].
  destruct (extract_int_suffix _ E4) as [p4 S4].
  destruct (ignore_one_suffix st4) as [p5 S5].
  exists (p1 ++ p2 ++ p3 ++ p4 ++ p5), (pending (ignore_one st4)).
  split; [|split; [exact Et|]].
  - rewrite S1, S2, S3, S4, S5 at 1. now rewrite <- !app_assoc.
  - intros xp yp X Y. rewrite Et.
    destruct Enough as [Z | [_ L]]; [nia|].
    destruct (@texels_of_nth (yp * Z.to_nat w + xp)
                (pending (ignore_one st4)) ltac:(nia))
      as (r & g & b & A & B & C & D).
    exists r, g, b. rewrite texel_rows_of by assumption. auto.
Qed.

Lemma loadTexture_bad_magic (bytes filename : list Z) :
  fst (extract_word (mkIstream bytes true)) <> chars "P6" ->
  loadTexture (T := T) (Some bytes) filename
  = Exits (chars "Invalid PPM file format" ++ [10%Z]) 1.
Proof.
  intro N. unfold loadTexture.
  destruct (extract_word (mkIstream bytes true)) as [magic st1].
  simpl in N. unfold list_eqb.
  destruct (list_eq_dec Z.eq_dec magic (chars "P6")); [congruence|].
  reflexivity.
Qed.

(** X20.  [loadTexture] returns only for a file that starts, after
    optional white space, with the word [P6] followed by a white space.
    A file that cannot be opened, and a file whose first word is anything
    else, end the program with status 1, each with its own message. *)
Theorem loadTexture_rejects (filename : list Z) :
  loadTexture (T := T) None filename
  = Exits (chars "Unable to open texture file: " ++ filename ++ [10%Z]) 1 /\
  (forall bytes,
     fst (extract_word (mkIstream bytes true)) <> chars "P6" ->
     loadTexture (T := T) (Some bytes) filename
     = Exits (chars "Invalid PPM file format" ++ [10%Z]) 1) /\
  (forall bytes r,
     loadTexture (T := T) (Some bytes) filename = Returns r ->
     exists ws c rest,
       bytes = ws ++ chars "P6" ++ c :: rest /\
       Forall (fun c => is_space c = true) ws /\ is_space c = true).
Proof.
  split; [reflexivity|]. split.
  - intros bytes N. now apply loadTexture_bad_magic.
  - intros bytes r. unfold loadTexture.
    destruct (extract_word (mkIstream bytes true)) as [magic st1] eqn:E1.
    unfold list_eqb.
    destruct (list_eq_dec Z.eq_dec magic (chars "P6")) as [-> | N];
      [|discriminate].
    cbn [negb].
    unfold extract_word in E1. cbn [ok pending] in E1.
    destruct (skipws_split bytes) as (ws & Eb & Fw).
    destruct (skipws bytes) as [|c l]; [discriminate|].
    destruct (span_word (c :: l)) as [wd rest] eqn:Sw.
    injection E1 as -> <-. apply span_word_split in Sw.
    destruct Sw as [Sw Sp].
    destruct rest as [|d rest].
    + change (extract_int (mkIstream [] true))
        with (@None Z, mkIstream [] false).
      cbv beta iota.
      change (extract_int (mkIstream [] false))
        with (@None Z, mkIstream [] false).
      cbv beta iota. discriminate.
    + intros _. exists ws, d, rest. rewrite Eb, Sw. auto.
Qed.
End LoaderContent.

(** ** The image writer, and its files read back *)

Section WriterFacts.
Context {T : Type} `{Float T} `{CMath T} `{CTan T}.

Lemma quantize_byte (c : T) (q : Z) :
  quantize c = Some q -> (0 <= q <= 255)%Z.
Proof.
  unfold quantize. destruct (_ && _) eqn:B; [|discriminate].
  intros [= <-]. apply andb_prop in B. destruct B as [A B].
  apply Z.leb_le in A. apply Z.leb_le in B. lia.
Qed.

Lemma write_pixels_spec (image : list (Vec3 T)) :
  forall body,
    write_pixels image = Some body ->
    List.length body = (3 * List.length image)%nat /\
    Forall (fun c => 0 <= c <= 255)%Z body /\
    Forall2 reloads image (texels_of body).
Proof.
  induction image as [|v image IH]; intros body E; simpl in E.
  - injection E as <-. repeat split; constructor.
  - unfold write_pixel in E.
    destruct (quantize (x v)) as [r|] eqn:Qr; [|discriminate].
    destruct (quantize (y v)) as [g|] eqn:Qg; [|discriminate].
    destruct (quantize (z v)) as [b|] eqn:Qb; [|discriminate].
    destruct (write_pixels image) as [rest|]; [|discriminate].
    injection E as <-. destruct (IH _ eq_refl) as (L & B & F).
    split; [simpl; lia|]. split.
    + repeat constructor;
        try (eapply quantize_byte; eassumption); exact B.
    + simpl. constructor; [|exact F]. now exists r, g, b.
Qed.

Lemma Forall2_nth {A B : Type} (R : A -> B -> Prop) (l : list A)
    (m : list B) :
  Forall2 R l m ->
  forall k a, nth_error l k = Some a ->
    exists b, nth_error m k = Some b /\ R a b.
Proof.
  induction 1 as [|a0 b0 l m R0 _ IH]; intros k a E.
  - destruct k; discriminate.
  - destruct k as [|k]; [injection E as <-; now exists b0|].
    now apply IH.
Qed.

Lemma ppm_header_is_max (width height : Z) :
  ppm_header width height = ppm_header_max width height 255.
Proof. reflexivity. Qed.

Lemma loadTexture_written (width height : nat)
    (image : list (Vec3 T)) (bytes filename : list Z) :
  (Z.of_nat width <= INT_MAX)%Z -> (Z.of_nat height <= INT_MAX)%Z ->
  List.length image = (height * width)%nat ->
  ppm_file (Z.of_nat width) (Z.of_nat height) image = Some bytes ->
  exists tex,
    loadTexture (Some bytes) filename
    = Returns (tex, Z.of_nat width, Z.of_nat height) /\
    forall xp yp : nat,
      (xp < width)%nat -> (yp < height)%nat ->
      exists v t,
        nth_error image (yp * width + xp) = Some v /\
        texel tex (Z.of_nat xp) (Z.of_nat yp) = Some t /\
        reloads v t.
Proof.
  intros W Hh L E. unfold ppm_file in E.
  destruct (write_pixels image) as [body|] eqn:Wp; [|discriminate].
  assert (Eb : bytes
               = ppm_header (Z.of_nat width) (Z.of_nat height) ++ body)
    by congruence.
  clear E. subst bytes. apply write_pixels_spec in Wp.
  destruct Wp as (Lb & _ & F).
  rewrite ppm_header_is_max, loadTexture_header
    by (unfold INT_MAX in * ; lia).
  rewrite !Nat2Z.id, read_rows_enough by nia.
  eexists. split; [reflexivity|].
  intros xp yp X Y. rewrite texel_rows_of by assumption.
  destruct (nth_error image (yp * width + xp)) as [v|] eqn:N.
  - destruct (Forall2_nth F _ N) as (t & Nt & R). now exists v, t.
  - apply nth_error_None in N. nia.
Qed.

(** X21.  A file that the writer makes is a texture file: for sizes in
    the range of [int] and an image of [width * height] pixels,
    [loadTexture] returns from it a texture of the same width and height
    whose texel in column [xp] of row [yp] is the pixel at index
    [yp * width + xp] of the image, each channel quantized to a byte and
    divided by 255. *)
Theorem loadTexture_of_ppm_file (width height : nat)
    (image : list (Vec3 T)) (bytes filename : list Z) :
  (Z.of_nat width <= INT_MAX)%Z -> (Z.of_nat height <= INT_MAX)%Z ->
  List.length image = (height * width)%nat ->
  ppm_file (Z.of_nat width) (Z.of_nat height) image = Some bytes ->
  exists tex,
    loadTexture (Some bytes) filename
    = Returns (tex, Z.of_nat width, Z.of_nat height) /\
    forall xp yp : nat,
      (xp < width)%nat -> (yp < height)%nat ->
      exists v t,
        nth_error image (yp * width + xp) = Some v /\
        texel tex (Z.of_nat xp) (Z.of_nat yp) = Some t /\
        reloads v t.
Proof. apply loadTexture_written. Qed.
End WriterFacts.

(** ** A sphere with a loaded texture *)

Section LoadedSphere.
Context {T : Type} `{Float T} `{CMath T}.

(** X22.  A sphere constructed with a texture that [loadTexture] returned
    from a file of width and height at least 1 takes every colour from
    that texture: for every point [getColor] is one of the texels of the
    file.  With height 0 the sphere shows its flat colour instead. *)
Theorem getColor_of_loaded (file : option (list Z)) (filename : list Z)
    (tex : list (list (Vec3 T))) (width height : Z)
    (c : Vec3 T) (r : T) (sc : Vec3 T) (refl transp : T) (ec : Vec3 T) :
  loadTexture file filename = Returns (tex, width, height) ->
  let s := Sphere_new c r sc refl transp ec (Some (tex, width, height)) in
  (height = 0%Z -> forall phit, getColor s phit = sc) /\
  ((1 <= width)%Z -> (1 <= height)%Z ->
   forall phit, exists row, In row tex /\ In (getColor s phit) row).
Proof.
  intros E s. apply loadTexture_shape in E.
  destruct E as (Pw & Ph & Lh & Lw). split.
  - intros -> phit. destruct tex; [reflexivity | discriminate].
  - intros W Hh phit.
    assert (Ld : texture_loaded s) by (split; assumption).
    destruct (@clamp_index (textureWidth s)
                (to_int (texture_u s phit * of_int (textureWidth s))%F) W)
      as [_ Bx].
    destruct (@clamp_index (textureHeight s)
                (to_int (texture_v s phit * of_int (textureHeight s))%F) Hh)
      as [_ By].
    destruct (texel_in_bounds Ld Bx By) as [t Et].
    assert (G : getColor s phit = t).
    { unfold getColor. change (texture s) with tex in Et |- * .
      destruct tex as [|row0 tex0]; [simpl in Lh; lia|].
      unfold texture_index. rewrite Et. reflexivity. }
    rewrite G. unfold texel in Et. change (texture s) with tex in Et.
    destruct (_ || _); [discriminate|].
    destruct (nth_error tex _) as [row|] eqn:Er; [|discriminate].
    exists row. split; eapply nth_error_In; eassumption.
Qed.
End LoadedSphere.

(** ** The driver *)

Section RenderFacts.
Context {T : Type} `{Float T} `{CMath T} `{CTan T}.

Lemma all_some_map {A : Type} (l : list (option A)) :
  (forall o, In o l -> exists a, o = Some a) ->
  exists r, all_some l = Some r /\ l = map Some r.
Proof.
  induction l as [|o l IH]; intro A0; [now exists []|].
  destruct (A0 o (or_introl eq_refl)) as [a ->].
  destruct IH as (r & E & M); [intros o I; apply A0; now right|].
  exists (a :: r). simpl. rewrite E. split; [reflexivity | now rewrite M at 1].
Qed.

Lemma flat_map_rows_length {A B : Type} (f : A -> list B) (w : nat)
    (l : list A) :
  (forall a, List.length (f a) = w) ->
  List.length (flat_map f l) = (List.length l * w)%nat.
Proof.
  intro F. induction l as [|a l IH]; [reflexivity|].
  simpl. rewrite length_app, F, IH. reflexivity.
Qed.

Lemma flat_map_rows_nth {A B : Type} (f : A -> list B) (w : nat) :
  (forall a, List.length (f a) = w) ->
  forall (l : list A) (i k : nat) (a : A),
    nth_error l i = Some a -> (k < w)%nat ->
    nth_error (flat_map f l) (i * w + k) = nth_error (f a) k.
Proof.
  intros F l. induction l as [|a0 l IH]; intros i k a E K.
  - destruct i; discriminate.
  - destruct i as [|i]; simpl in E |- * .
    + injection E as <-. rewrite nth_error_app1 by (rewrite F; exact K).
      reflexivity.
    + rewrite nth_error_app2 by (rewrite F; lia).
      rewrite F. replace (w + i * w + k - w)%nat with (i * w + k)%nat by lia.
      now apply IH.
Qed.

Lemma seq_nth (n i : nat) : (i < n)%nat -> nth_error (seq 0 n) i = Some i.
Proof.
  intro L. rewrite nth_error_nth' with (d := O) by now rewrite length_seq.
  now rewrite seq_nth.
Qed.

Lemma render_image_total (width height : nat)
    (spheres : list (Sphere T)) :
  exists image,
    all_some (render_image width height spheres) = Some image /\
    List.length image = (height * width)%nat /\
    forall xp yp : nat,
      (xp < width)%nat -> (yp < height)%nat ->
      exists c,
        nth_error image (yp * width + xp) = Some c /\
        trace (Vec3_splat (of_int 0))
          (primary_ray (Z.of_nat width) (Z.of_nat height)
             (Z.of_nat xp) (Z.of_nat yp))
          spheres 0 = Some c.
Proof.
  destruct (@all_some_map _ (render_image width height spheres))
    as (image & E & M).
  { intros o I. unfold render_image in I. apply in_flat_map in I.
    destruct I as (yp & _ & I). apply in_map_iff in I.
    destruct I as (xp & <- & _). unfold trace. apply trace_fuel_total.
    unfold trace_levels. lia. }
  exists image. split; [exact E|].
  assert (Lf : forall yp : nat,
             List.length
               (map (fun xp : nat =>
                       trace (Vec3_splat (of_int 0))
                         (primary_ray (Z.of_nat width) (Z.of_nat height)
                            (Z.of_nat xp) (Z.of_nat yp)) spheres 0)
                  (seq 0 width)) = width).
  { intro yp. now rewrite length_map, length_seq. }
  split.
  - rewrite <- (length_map Some image), <- M. unfold render_image.
    rewrite flat_map_rows_length with (w := width) by exact Lf.
    now rewrite length_seq.
  - intros xp yp X Y.
    assert (N : nth_error (render_image width height spheres)
                  (yp * width + xp)
                = Some (trace (Vec3_splat (of_int 0))
                          (primary_ray (Z.of_nat width) (Z.of_nat height)
                             (Z.of_nat xp) (Z.of_nat yp)) spheres 0)).
    { unfold render_image.
      rewrite flat_map_rows_nth with (w := width) (a := yp);
        [|exact Lf | now apply seq_nth | exact X].
      rewrite nth_error_map, seq_nth by exact X. reflexivity. }
    rewrite M, nth_error_map in N.
    destruct (nth_error image (yp * width + xp)) as [c|]; [|discriminate].
    exists c. split; [reflexivity|]. now injection N.
Qed.

(** X23.  [render] traces one primary ray for each pixel, from the origin
    and at depth 0, and every one of them gets a colour: the image of a
    [width] by [height] rendering has [width * height] colours, the
    colour of the pixel in column [xp] of row [yp] being at index
    [yp * width + xp]. *)
Theorem render_image_pixels (width height : nat)
    (spheres : list (Sphere T)) :
  exists image,
    all_some (render_image width height spheres) = Some image /\
    List.length image = (height * width)%nat /\
    forall xp yp : nat,
      (xp < width)%nat -> (yp < height)%nat ->
      exists c,
        nth_error image (yp * width + xp) = Some c /\
        trace (Vec3_splat (of_int 0))
          (primary_ray (Z.of_nat width) (Z.of_nat height)
             (Z.of_nat xp) (Z.of_nat yp))
          spheres 0 = Some c.
Proof. apply render_image_total. Qed.

(** The file of a rendering of any size within the range of [int]. *)
Lemma render_sized_file (width height : nat) (spheres : list (Sphere T))
    (bytes filename : list Z) :
  (Z.of_nat width <= INT_MAX)%Z -> (Z.of_nat height <= INT_MAX)%Z ->
  render_sized width height spheres = Some bytes ->
  (exists body,
     bytes = ppm_header (Z.of_nat width) (Z.of_nat height) ++ body /\
     Z.of_nat (List.length body)
     = (3 * Z.of_nat width * Z.of_nat height)%Z) /\
  exists tex,
    loadTexture (Some bytes) filename
    = Returns (tex, Z.of_nat width, Z.of_nat height) /\
    forall xp yp : nat,
      (xp < width)%nat -> (yp < height)%nat ->
      exists c t,
        trace (Vec3_splat (of_int 0))
          (primary_ray (Z.of_nat width) (Z.of_nat height)
             (Z.of_nat xp) (Z.of_nat yp)) spheres 0
        = Some c /\
        texel tex (Z.of_nat xp) (Z.of_nat yp) = Some t /\
        reloads c t.
Proof.
  intros W Hh E. unfold render_sized in E.
  destruct (render_image_total width height spheres) as (image & A & L & P).
  rewrite A in E. split.
  - unfold ppm_file in E.
    destruct (write_pixels image) as [body|] eqn:Wp; [|discriminate].
    exists body. split; [congruence|].
    apply write_pixels_spec in Wp. destruct Wp as (Lb & _ & _). nia.
  - destruct (@loadTexture_written _ _ width height image bytes filename
                W Hh L E) as (tex & Ld & Tx).
    exists tex. split; [exact Ld|].
    intros xp yp X Y. destruct (P xp yp X Y) as (c & N & Tr).
    destruct (Tx xp yp X Y) as (v & t & N' & Et & R).
    rewrite N in N'. injection N' as <-. now exists c, t.
Qed.

(** X24.  The file that [render] writes can be loaded as a texture: when
    every channel of the image can be converted to a byte, the file is
    the header for 640 by 480 followed by three bytes for each of the
    307200 pixels, 921615 bytes in all, and [loadTexture] returns from it
    a texture of width 640 and height 480 whose texel in column [xp] of
    row [yp] is the colour traced for this pixel, quantized. *)
Theorem render_file_reloads (spheres : list (Sphere T))
    (bytes filename : list Z) :
  render spheres = Some bytes ->
  (exists body,
     bytes = chars "P6" ++ [10%Z] ++ chars "640 480" ++ [10%Z]
             ++ chars "255" ++ [10%Z] ++ body /\
     Z.of_nat (List.length body) = 921600%Z) /\
  exists tex,
    loadTexture (Some bytes) filename = Returns (tex, 640%Z, 480%Z) /\
    forall xp yp : nat,
      (Z.of_nat xp < 640)%Z -> (Z.of_nat yp < 480)%Z ->
      exists c t,
        trace (Vec3_splat (of_int 0))
          (primary_ray 640 480 (Z.of_nat xp) (Z.of_nat yp)) spheres 0
        = Some c /\
        texel tex (Z.of_nat xp) (Z.of_nat yp) = Some t /\
        reloads c t.
Proof.
  intro E. unfold render in E.
  assert (W : (Z.of_nat 640 <= INT_MAX)%Z) by (vm_compute; discriminate).
  assert (Hh : (Z.of_nat 480 <= INT_MAX)%Z) by (vm_compute; discriminate).
  destruct (@render_sized_file 640%nat 480%nat spheres bytes filename
              W Hh E)
    as ((body & Eb & Lb) & tex & Ld & Tx).
  change (Z.of_nat 640) with 640%Z in * .
  change (Z.of_nat 480) with 480%Z in * .
  split.
  - exists body. split; [|exact Lb].
    rewrite Eb. unfold ppm_header.
    change (decimal 640) with (chars "640").
    change (decimal 480) with (chars "480").
    change (chars "640 480") with (chars "640" ++ chars " " ++ chars "480").
    now rewrite <- !app_assoc.
  - exists tex. split; [exact Ld|].
    intros xp yp X Y. apply Tx.
    + apply Nat2Z.inj_lt. exact X.
    + apply Nat2Z.inj_lt. exact Y.
Qed.
End RenderFacts.

(** ** The program *)

Section MainFacts.
Context {T : Type} `{Float T} `{CMath T} `{CTan T}.

Lemma Sphere_construct_untextured files (c : Vec3 T) r sc refl transp ec :
  Sphere_construct files c r sc refl transp ec []
  = Returns (Sphere_new c r sc refl transp ec None).
Proof. reflexivity. Qed.

Lemma Sphere_construct_textured files (c : Vec3 T) r sc refl transp ec name :
  name <> [] ->
  Sphere_construct files c r sc refl transp ec name
  = match loadTexture (files name) name with
    | Returns loaded =>
        Returns (Sphere_new c r sc refl transp ec (Some loaded))
    | Exits m n => Exits m n
    | Throws => Throws
    | Undefined => Undefined
    end.
Proof. destruct name; [congruence | reflexivity]. Qed.

(** X25.  The outcome of [main] is decided by the one texture file.
    When [angad_texture.ppm] cannot be opened, or does not start with the
    word [P6], the program ends with status 1 before anything is
    rendered.  When the file is one that [render] wrote, the six spheres
    are built, the second with a texture of 640 by 480 texels in 480
    rows of 640, and [main] renders them. *)
Theorem main_outcome (files : list Z -> option (list Z)) :
  let name := chars "angad_texture.ppm" in
  (files name = None ->
   main (T := T) files
   = Exits (chars "Unable to open texture file: " ++ name ++ [10%Z]) 1) /\
  (forall bytes,
     files name = Some bytes ->
     fst (extract_word (mkIstream bytes true)) <> chars "P6" ->
     main (T := T) files
     = Exits (chars "Invalid PPM file format" ++ [10%Z]) 1) /\
  (forall (spheres0 : list (Sphere T)) bytes,
     render spheres0 = Some bytes ->
     files name = Some bytes ->
     exists scene s,
       main files = Returns (render scene) /\
       List.length scene = 6%nat /\
       nth_error scene 1 = Some s /\
       textureWidth s = 640%Z /\ textureHeight s = 480%Z /\
       texture_loaded s).
Proof.
  intro name.
  assert (Nn : name <> []) by (vm_compute; discriminate).
  assert (M : main (T := T) files
              = match loadTexture (T := T) (files name) name with
                | Returns loaded =>
                    match collect (main_spheres files) with
                    | Returns spheres => Returns (render spheres)
                    | Exits m n => Exits m n
                    | Throws => Throws
                    | Undefined => Undefined
                    end
                | Exits m n => Exits m n
                | Throws => Throws
                | Undefined => Undefined
                end).
  { unfold main, main_spheres. fold name. cbn [collect].
    rewrite !Sphere_construct_untextured.
    rewrite Sphere_construct_textured by exact Nn.
    destruct (loadTexture (files name) name); reflexivity. }
  split; [|split].
  - intro E. rewrite M, E. reflexivity.
  - intros bytes E N. rewrite M, E.
    now rewrite loadTexture_bad_magic by exact N.
  - intros spheres0 bytes R E.
    assert (W : (Z.of_nat 640 <= INT_MAX)%Z) by (vm_compute; discriminate).
    assert (Hh : (Z.of_nat 480 <= INT_MAX)%Z) by (vm_compute; discriminate).
    destruct (@render_sized_file _ _ _ _ 640%nat 480%nat spheres0 bytes name
                W Hh R) as (_ & tex & Ld & _).
    change (Z.of_nat 640) with 640%Z in Ld.
    change (Z.of_nat 480) with 480%Z in Ld.
    pose proof (loadTexture_shape _ _ Ld) as (_ & _ & Lh & Lw).
    unfold main, main_spheres. fold name. cbn [collect].
    rewrite !Sphere_construct_untextured.
    rewrite Sphere_construct_textured by exact Nn.
    rewrite E, Ld. eexists. eexists.
    split; [reflexivity|]. split; [reflexivity|]. split; [reflexivity|].
    split; [reflexivity|]. split; [reflexivity|]. split; assumption.
Qed.
End MainFacts.

(** ** The scene without a sphere *)

Section EmptyScene.
Context {T : Type} `{Float T} `{CMath T} `{CTan T}.

Lemma trace_empty (rayorig raydir : Vec3 T) (depth : Z) :
  trace rayorig raydir [] depth = Some (Vec3_splat (of_int 2)).
Proof.
  rewrite trace_equation. now apply trace_body_background with (t := INFINITY).
Qed.

Lemma all_some_const_app (A B : Type) (a : A) (cols : list B)
    (rest : list (option A)) (r : list A) :
  all_some rest = Some r ->
  all_some (map (fun _ => Some a) cols ++ rest)
  = Some (repeat a (List.length cols) ++ r).
Proof.
  intro E. induction cols as [|c cols IH]; [exact E|].
  cbn [map app all_some List.length repeat]. now rewrite IH.
Qed.

Lemma all_some_const (A B C : Type) (a : A) (cols : list B)
    (rows : list C) :
  all_some (flat_map (fun _ => map (fun _ => Some a) cols) rows)
  = Some (repeat a (List.length rows * List.length cols)).
Proof.
  induction rows as [|r rows IH]; [reflexivity|].
  cbn [flat_map List.length Nat.mul]. rewrite repeat_app.
  now apply all_some_const_app.
Qed.

Lemma write_pixels_const (v : Vec3 T) (p : list Z) (n : nat) :
  write_pixel v = Some p ->
  write_pixels (repeat v n) = Some (concat (repeat p n)).
Proof.
  intro E. induction n as [|n IH]; [reflexivity|].
  cbn [repeat write_pixels concat]. now rewrite E, IH.
Qed.

(** Rendering the scene without a sphere: every pixel is written as the
    byte of the background channel, three times. *)
Lemma render_sized_empty (width height : nat) (q : Z) :
  quantize (of_int 2) = Some q ->
  render_sized width height []
  = Some (ppm_header (Z.of_nat width) (Z.of_nat height)
          ++ concat (repeat [q; q; q] (height * width))).
Proof.
  intro Q. unfold render_sized, render_image.
  rewrite flat_map_ext
    with (g := fun _ : nat =>
                 map (fun _ : nat => Some (Vec3_splat (of_int 2)))
                   (seq 0 width))
    by (intro yp; apply map_ext; intro xp; apply trace_empty).
  rewrite all_some_const, !length_seq. unfold ppm_file.
  rewrite write_pixels_const with (p := [q; q; q]); [reflexivity|].
  unfold write_pixel, Vec3_splat. cbn [x y z]. now rewrite Q.
Qed.
End EmptyScene.

(** ** The further theorems at work *)

Import MoreScenes FloatScenes.

Ltac qc := apply Qc_is_canon; vm_compute; reflexivity.

(** Looking away from the ball and the lamp the search ends without a
    sphere. *)
Lemma nearest_hit_none_iff_witness :
  snd (nearest_hit eye backward [ball; lamp]) = None.
Proof.
  apply nearest_hit_none_iff.
  intros s [<- | [<- | []]]; left; evaluate.
Defined.

(** The ball is the nearest sphere on the ray of the camera. *)
Lemma nearest_hit_minimal_witness :
  (fst (nearest_hit eye forward [ball; lamp]) <? INFINITY)%F = true /\
  forall s' t0 t1, In s' [ball; lamp] ->
    intersect s' eye forward = Some (t0, t1) ->
    (fst (nearest_hit eye forward [ball; lamp]) <= used_distance t0 t1)%F.
Proof.
  apply (nearest_hit_minimal eye forward [ball; lamp] (s := ball)).
  evaluate.
Defined.

(** On the floats: a far ball whose distances are NaN, then two balls in
    the same place.  The first of the two is selected; the far ball
    before it has neither its distance nor a smaller one. *)
Lemma nearest_hit_first_wins_witness :
  intersect far_ball eye32 forward32
  = Some (SpecFloat.S754_nan, SpecFloat.S754_nan) /\
  nearest_hit eye32 forward32 [far_ball; ball32; twin32]
  = (of_int 4, Some ball32) /\
  snd (nearest_hit eye32 forward32 [far_ball; twin32; ball32])
  = Some twin32 /\
  exists pre post,
    [far_ball; ball32; twin32] = pre ++ ball32 :: post /\
    (forall s' t0 t1, In s' pre ->
       intersect s' eye32 forward32 = Some (t0, t1) ->
       used_distance t0 t1 <> of_int 4 /\
       (used_distance t0 t1 <? of_int 4)%F = false) /\
    (forall s' t0 t1, In s' post ->
       intersect s' eye32 forward32 = Some (t0, t1) ->
       (used_distance t0 t1 <? of_int 4)%F = false).
Proof.
  split; [evaluate|]. split; [evaluate|]. split; [evaluate|].
  apply (@nearest_hit_first_wins _ Binary32_Float SFltb_irrefl SFltb_trans
           eye32 forward32 [far_ball; ball32; twin32]).
  evaluate.
Defined.

(** The normal at the point of the ball nearest to the camera. *)
Lemma hit_normal_faces_ray_witness :
  (dot forward (fst (hit_normal ball forward (vec 0 0 (-4)))) <= of_int 0)%F /\
  observe (fst (hit_normal ball forward (vec 0 0 (-4)))) = (0, 0, 1)%Q.
Proof.
  split; [|evaluate].
  apply (hit_normal_faces_ray ball forward (vec 0 0 (-4))).
Defined.

(** Inside the mirror ball at depth 5 and at depth 7. *)
Lemma trace_at_depth_limit_witness :
  trace eye forward [mirror] 7 = trace eye forward [mirror] 5.
Proof.
  assert (L : (MAX_RAY_DEPTH <= 5)%Z) by (unfold MAX_RAY_DEPTH; lia).
  destruct (trace_at_depth_limit eye forward [mirror] L) as [E _].
  apply E. unfold MAX_RAY_DEPTH. lia.
Defined.

(** Inside the mirror ball at depth 0: the colour is that of the ray
    reflected at the far side, traced at depth 1. *)
Lemma mirror_shading_witness :
  let tnear := fst (nearest_hit eye forward [mirror]) in
  let phit := hit_point eye forward tnear in
  let nhit := fst (hit_normal mirror forward phit) in
  trace eye forward [mirror] 0 =
  option_map
    (fun reflection_ =>
       (reflection_ *. fresnel forward nhit * getColor mirror phit
        + emissionColor mirror)%V)
    (trace (phit + nhit *. bias)%V (normalize (reflect_dir forward nhit))
       [mirror] (0 + 1)%Z).
Proof.
  intros tnear phit nhit.
  apply (mirror_shading eye forward [mirror] (depth := 0) (tnear := tnear)
           (sphere := mirror)).
  - evaluate.
  - reflexivity.
  - evaluate.
  - unfold MAX_RAY_DEPTH. lia.
Defined.

(** The globe without columns. *)
Lemma texture_index_without_columns_witness :
  fst (texture_index hollow_globe (vec 0 1 0)) = (-1)%Z /\
  texel (texture hollow_globe) (fst (texture_index hollow_globe (vec 0 1 0)))
    (snd (texture_index hollow_globe (vec 0 1 0))) = None.
Proof.
  destruct (texture_index_without_columns hollow_globe (vec 0 1 0))
    as (E & _ & N); [simpl; lia|].
  split; [exact E | exact N].
Defined.

(** The texture of the file of two texels. *)
Lemma loadTexture_dimensions_witness :
  loadTexture (Some tiny_ppm) (chars "tiny.ppm")
  = Returns (tiny_texture, 2%Z, 1%Z) /\
  (0 <= 2)%Z /\ (0 <= 1)%Z /\
  List.length tiny_texture = Z.to_nat 1 /\
  forall row, In row tiny_texture -> List.length row = Z.to_nat 2.
Proof.
  assert (E : loadTexture (Some tiny_ppm) (chars "tiny.ppm")
              = Returns (tiny_texture, 2%Z, 1%Z)) by evaluate.
  split; [exact E|].
  exact (loadTexture_dimensions (Some tiny_ppm) (chars "tiny.ppm") E).
Defined.

(** The file of two texels with 255 and with 65535 for maximum value. *)
Lemma loadTexture_ignores_maxVal_witness :
  loadTexture (T := Qc) (Some tiny_ppm) (chars "tiny.ppm")
  = loadTexture (Some tiny_ppm_deep) (chars "tiny.ppm") /\
  loadTexture (Some tiny_ppm_deep) (chars "tiny.ppm")
  = Returns (tiny_texture, 2%Z, 1%Z).
Proof.
  split; [|evaluate].
  apply (loadTexture_ignores_maxVal (T := Qc) (width := 2) (height := 1)
           (m1 := 255) (m2 := 65535) tiny_pixels (chars "tiny.ppm"));
    unfold INT_MAX; lia.
Defined.

(** The file of two texels without its last byte. *)
Lemma loadTexture_truncated_witness :
  loadTexture (T := Qc) (Some tiny_ppm_cut) (chars "tiny.ppm") = Undefined.
Proof.
  apply (loadTexture_truncated (T := Qc) (width := 2) (height := 1)
           (maxVal := 255) [255; 0; 0; 0; 255]%Z (chars "tiny.ppm"));
    unfold INT_MAX; simpl; lia.
Defined.

(** The second texel of the file of two texels is made of its bytes 3,
    4 and 5. *)
Lemma loadTexture_texels_witness :
  exists header payload,
    tiny_ppm = header ++ payload /\
    tiny_texture = rows_of (Z.to_nat 1) (Z.to_nat 2) (texels_of payload) /\
    forall xp yp : nat,
      (xp < Z.to_nat 2)%nat -> (yp < Z.to_nat 1)%nat ->
      exists r g b,
        nth_error payload (3 * (yp * Z.to_nat 2 + xp)) = Some r /\
        nth_error payload (3 * (yp * Z.to_nat 2 + xp) + 1) = Some g /\
        nth_error payload (3 * (yp * Z.to_nat 2 + xp) + 2) = Some b /\
        texel tiny_texture (Z.of_nat xp) (Z.of_nat yp)
        = Some (texel_of_bytes r g b).
Proof.
  apply (loadTexture_texels (T := Qc) tiny_ppm (chars "tiny.ppm")).
  evaluate.
Defined.

(** No file, a file in the text format, and the start of the file of
    two texels. *)
Lemma loadTexture_rejects_witness :
  loadTexture (T := Qc) None (chars "tiny.ppm")
  = Exits (chars "Unable to open texture file: tiny.ppm" ++ [10%Z]) 1 /\
  loadTexture (T := Qc) (Some text_ppm) (chars "tiny.ppm")
  = Exits (chars "Invalid PPM file format" ++ [10%Z]) 1 /\
  exists ws c rest,
    tiny_ppm = ws ++ chars "P6" ++ c :: rest /\
    Forall (fun c => is_space c = true) ws /\ is_space c = true.
Proof.
  destruct (loadTexture_rejects (T := Qc) (chars "tiny.ppm"))
    as (A & B & C).
  split; [exact A|]. split.
  - apply B. vm_compute. discriminate.
  - apply (C tiny_ppm (tiny_texture, 2%Z, 1%Z)). evaluate.
Defined.

(** An image of two pixels, written and loaded. *)
Lemma loadTexture_of_ppm_file_witness :
  ppm_file 2 1 tiny_image
  = Some (ppm_header 2 1 ++ [255; 127; 0; 255; 63; 255]%Z) /\
  exists tex,
    loadTexture (Some (ppm_header 2 1 ++ [255; 127; 0; 255; 63; 255]%Z))
      (chars "tiny.ppm")
    = Returns (tex, 2%Z, 1%Z) /\
    forall xp yp : nat,
      (xp < 2)%nat -> (yp < 1)%nat ->
      exists v t,
        nth_error tiny_image (yp * 2 + xp) = Some v /\
        texel tex (Z.of_nat xp) (Z.of_nat yp) = Some t /\
        reloads v t.
Proof.
  assert (E : ppm_file (Z.of_nat 2) (Z.of_nat 1) tiny_image
              = Some (ppm_header 2 1 ++ [255; 127; 0; 255; 63; 255]%Z))
    by evaluate.
  split; [exact E|].
  apply (loadTexture_of_ppm_file (T := Qc) 2 1 tiny_image
           (chars "tiny.ppm"));
    [unfold INT_MAX; lia | unfold INT_MAX; lia | reflexivity | exact E].
Defined.

(** A ball with the texture of the file of two texels, at its pole. *)
Lemma getColor_of_loaded_witness :
  exists row,
    In row tiny_texture /\
    In (getColor
          (Sphere_new (vec 0 0 0) (lit 1) (vec 1 1 1) (lit 0) (lit 0)
             (vec 0 0 0) (Some (tiny_texture, 2%Z, 1%Z))) (vec 0 1 0)) row.
Proof.
  assert (E : loadTexture (Some tiny_ppm) (chars "tiny.ppm")
              = Returns (tiny_texture, 2%Z, 1%Z)) by evaluate.
  destruct (getColor_of_loaded (Some tiny_ppm) (chars "tiny.ppm")
              (vec 0 0 0) (lit 1) (vec 1 1 1) (lit 0) (lit 0) (vec 0 0 0) E)
    as [_ G].
  apply G; lia.
Defined.

(** What [render] writes for the scene without a sphere. *)
Lemma render_empty_scene : render (T := Qc) [] = Some white_file.
Proof. exact (render_sized_empty (T := Qc) 640 480 (q := 255) eq_refl). Qed.

(** The file of the scene without a sphere, loaded: the texel of the
    first pixel is white. *)
Lemma render_file_reloads_witness :
  render (T := Qc) [] = Some white_file /\
  exists tex,
    loadTexture (Some white_file) (chars "angad_texture.ppm")
    = Returns (tex, 640%Z, 480%Z) /\
    option_map observe (texel tex 0 0) = Some (1, 1, 1)%Q.
Proof.
  split; [exact render_empty_scene|].
  destruct (render_file_reloads (T := Qc) [] (chars "angad_texture.ppm")
              render_empty_scene) as (_ & tex & Ld & Tx).
  exists tex. split; [exact Ld|].
  destruct (Tx 0%nat 0%nat) as (c & t & Tr & Et & r & g & b & Qr & Qg & Qb & ->);
    [reflexivity | reflexivity|].
  rewrite trace_empty in Tr. injection Tr as <-.
  vm_compute in Qr, Qg, Qb.
  injection Qr as <-. injection Qg as <-. injection Qb as <-.
  change (Z.of_nat 0) with 0%Z in Et. rewrite Et. evaluate.
Defined.

(** The program without its texture file, with a texture file in the
    text format, and with the file of the scene without a sphere. *)
Lemma main_outcome_witness :
  main (T := Qc) no_file
  = Exits (chars "Unable to open texture file: angad_texture.ppm"
           ++ [10%Z]) 1 /\
  main (T := Qc) text_file
  = Exits (chars "Invalid PPM file format" ++ [10%Z]) 1 /\
  exists scene s,
    main (T := Qc) white_files = Returns (render scene) /\
    List.length scene = 6%nat /\
    nth_error scene 1 = Some s /\
    textureWidth s = 640%Z /\ textureHeight s = 480%Z /\
    texture_loaded s.
Proof.
  split; [|split].
  - pose proof (main_outcome (T := Qc) no_file) as M. cbv zeta in M.
    destruct M as (A & _ & _). exact (A eq_refl).
  - pose proof (main_outcome (T := Qc) text_file) as M. cbv zeta in M.
    destruct M as (_ & B & _). apply (B text_ppm); [reflexivity|].
    vm_compute. discriminate.
  - pose proof (main_outcome (T := Qc) white_files) as M. cbv zeta in M.
    destruct M as (_ & _ & C).
    exact (C [] white_file render_empty_scene eq_refl).
Defined.
